(** * Order management simulation: a shallow embedding of [order_manager.py]

    The development follows the source file top-down: the Python
    primitives it relies on (floats, [max], [list.sort], [dict], [min]
    on tuples and the [heapq] module), the [Event] dataclass, the
    [Attendant] class and the [Orchestrator] class; then the properties
    of each.

    Modelling choices:
    - simulated times are Python floats, that is IEEE 754 doubles: a sum
      such as [t + 5] is the exact sum rounded to the nearest double,
      ties to even ([Float.add]);
    - the strings that the source uses as tags (the event type and the
      attendant status) are enumerations of the values that the source
      names;
    - [random.random()] is a function from the number of calls made so
      far to the value returned, and [print] appends to a list of lines;
    - the [while] loop of [process_events] takes a bound on the number of
      iterations and returns [None] when the bound is too small. *)

From Stdlib Require Import ZArith Lia Bool Eqdep_dec Permutation Sorted SpecFloat.
From Stdlib Require OrderedTypeEx.
From stdpp Require Import base list strings.

Local Open Scope nat_scope.

(** ** Python floats

    A Python float is an IEEE 754 binary64 number.  Every finite one is a
    whole number of units of 2^-1074 (the smallest positive double) with
    at most 53 significant bits, so a float is kept as its number of
    units, an integer; the two infinities are kept as plus and minus
    2^1024 (2^2098 units), which is what a sum that overflows rounds to.
    The order of floats is then the order of integers.  Not a number is
    left out: it is not a time, and the source, which only adds the
    constants 3 and 5 to a time, never makes one.  The two zeros are one,
    as they are for every comparison that the source makes. *)

Module Float.

Local Open Scope Z_scope.

Definition scale : Z := Z.shiftl 1 1074.
Definition inf_units : Z := Z.shiftl 1 2098.

(** The integer nearest to [a / 2 ^ k], the even one at a tie. *)
Definition rne (a k : Z) : Z :=
  let q := Z.shiftr a k in
  let r := Z.land a (Z.ones k) in
  match 2 * r ?= Z.shiftl 1 k with
  | Lt => q
  | Gt => q + 1
  | Eq => if Z.even q then q else q + 1
  end.

(** The same on a division: the integer nearest to [a / d]. *)
Definition nearest (a d : Z) : Z :=
  let q := a / d in
  let r := a mod d in
  match 2 * r ?= d with
  | Lt => q
  | Gt => q + 1
  | Eq => if Z.even q then q else q + 1
  end.

(** Around a magnitude [n] the doubles are the multiples of
    [2 ^ grid_exp n]: 53 significant bits. *)
Definition grid_exp (n : Z) : Z := Z.max 0 (Z.log2 n - 52).

(** Rounding to nearest, ties to even, of a non-negative number of
    units, with no bound on the exponent. *)
Definition round_pos (a : Z) : Z :=
  let k := grid_exp a in Z.shiftl (rne a k) k.

Definition round53 (a : Z) : Z :=
  if a <? 0 then - round_pos (- a) else round_pos a.

(** Overflow: a rounded result of magnitude 2^1024 or more is an
    infinity. *)
Definition clamp (n : Z) : Z :=
  if inf_units <=? n then inf_units
  else if n <=? - inf_units then - inf_units
  else n.

Definition on_grid (n : Z) : bool :=
  Z.land (Z.abs n) (Z.ones (grid_exp (Z.abs n))) =? 0.

Definition is_float (n : Z) : bool :=
  (Z.abs n <=? inf_units) && on_grid n.

Record t : Type := mk { units : Z; units_ok : is_float units = true }.

Definition zero : t := mk 0 eq_refl.

(** The float with [n] units; [n] is always a rounded and clamped
    number, for which the test succeeds. *)
Definition of_units (n : Z) : t :=
  match is_float n as b return is_float n = b -> t with
  | true => fun H => mk n H
  | false => fun _ => zero
  end eq_refl.

Definition is_inf (x : t) : bool := Z.abs (units x) =? inf_units.

(** [float(k)] for a Python int [k]: what [k] becomes when the source
    adds it to a float or compares it with one. *)
Definition of_int (k : Z) : t := of_units (clamp (round53 (Z.shiftl k 1074))).

(** The double [m * 2 ^ e], for writing a float such as 1.02 down. *)
Definition of_bits (m e : Z) : t := of_units (clamp (round53 (Z.shiftl m (e + 1074)))).

(** [x + y]: the exact sum, rounded; an infinite operand is the result.
    (The sum of the two opposite infinities is not a number; the source
    adds a finite constant to a time and never forms it.) *)
Definition add (x y : t) : t :=
  if is_inf x then x
  else if is_inf y then y
  else of_units (clamp (round53 (units x + units y))).

(** The real number [x + k], for an integer [k], in units; it need not
    be a double. *)
Definition plus_int (x : t) (k : Z) : Z := units x + Z.shiftl k 1074.

(** [k * x] for a Python int [k] other than 0 and of at most 53 bits,
    which [float(k)] keeps as it is: the exact product, rounded. *)
Definition mul_int (k : Z) (x : t) : t :=
  of_units (clamp (round53 (k * units x))).

Definition ltb (x y : t) : bool := units x <? units y.
Definition leb (x y : t) : bool := units x <=? units y.
Definition eqb (x y : t) : bool := units x =? units y.

Definition le (x y : t) : Prop := units x <= units y.
Definition lt (x y : t) : Prop := units x < units y.

(** The same number in the Standard Library's specification of IEEE 754
    arithmetic, to compare [add] with [SFadd] on examples. *)
Definition to_spec (x : t) : spec_float :=
  let n := units x in
  if n =? 0 then S754_zero false
  else if Z.abs n =? inf_units then S754_infinity (n <? 0)
  else binary_normalize 53 1024 n (-1074) false.

Definition agrees_with_SFadd (x y : t) : bool :=
  match SFcompare (to_spec (add x y)) (SFadd 53 1024 (to_spec x) (to_spec y)) with
  | Some Eq => true
  | _ => false
  end.

End Float.

Declare Scope float_scope.
Delimit Scope float_scope with F.
Bind Scope float_scope with Float.t.
Infix "+" := Float.add : float_scope.
Infix "<=" := Float.le : float_scope.
Infix "<" := Float.lt : float_scope.

Arguments Float.of_int : simpl never.
Arguments Float.of_bits : simpl never.
Arguments Float.add : simpl never.
Arguments Float.mul_int : simpl never.
Arguments Float.zero : simpl never.

(** The int literals of the source, where a float is expected. *)
Notation "0" := (Float.of_int 0) : float_scope.
Notation "1" := (Float.of_int 1) : float_scope.
Notation "2" := (Float.of_int 2) : float_scope.
Notation "3" := (Float.of_int 3) : float_scope.
Notation "4" := (Float.of_int 4) : float_scope.
Notation "5" := (Float.of_int 5) : float_scope.
Notation "6" := (Float.of_int 6) : float_scope.
Notation "7" := (Float.of_int 7) : float_scope.
Notation "8" := (Float.of_int 8) : float_scope.
Notation "9" := (Float.of_int 9) : float_scope.
Notation "10" := (Float.of_int 10) : float_scope.

(** ** Python primitives *)

Module Py.

(** [a < b] and [a >= b] on floats. *)
Definition float_lt (a b : Float.t) : bool := Float.ltb a b.
Definition float_ge (a b : Float.t) : bool := Float.leb b a.
Definition float_gt (a b : Float.t) : bool := float_lt b a.
Definition float_eq (a b : Float.t) : bool := Float.eqb a b.

(** [max(a, b)]: the first argument is kept unless the second is
    strictly greater. *)
Definition max (a b : Float.t) : Float.t := if float_gt b a then b else a.

(** [list.sort()] on floats is a stable sort; its result is the one of
    the stable insertion sort. *)
Fixpoint insort (x : Float.t) (l : list Float.t) : list Float.t :=
  match l with
  | [] => [x]
  | y :: l' => if float_lt y x then y :: insort x l' else x :: y :: l'
  end.

Definition sort (l : list Float.t) : list Float.t := foldr insort [] l.

(** A [dict] with string keys, in insertion order. *)
Definition dict (V : Type) : Type := list (string * V).

Fixpoint dict_get {V} (d : dict V) (k : string) : option V :=
  match d with
  | [] => None
  | (k', v) :: d' => if String.eqb k' k then Some v else dict_get d' k
  end.

(** [d[k] = v]: an existing key keeps its position. *)
Fixpoint dict_set {V} (d : dict V) (k : string) (v : V) : dict V :=
  match d with
  | [] => [(k, v)]
  | (k', v') :: d' =>
      if String.eqb k' k then (k', v) :: d' else (k', v') :: dict_set d' k v
  end.

Definition keys {V} (d : dict V) : list string := map fst d.

End Py.

(** ** The [Event] dataclass *)

Inductive EventType : Type := order_arrival | order_completion.

Record Event : Type := mkEvent {
  time : Float.t;
  type : EventType;
  data : Py.dict string
}.

#[global] Instance Event_inhabited : Inhabited Event :=
  populate (mkEvent 0 order_arrival []).

(** [dataclass(order=True)] with [compare=False] on [type] and [data]:
    events are compared by [time] alone. *)
Definition Event_lt (a b : Event) : bool := Py.float_lt (time a) (time b).

(** ** The [heapq] module, on a list of events *)

Module heapq.

Definition parentpos (pos : nat) : nat := Nat.shiftr (pos - 1) 1.

(** The [while pos > startpos] loop of [_siftdown]; [pos] strictly
    decreases, so [pos] itself bounds the number of iterations. *)
Fixpoint siftdown_loop (fuel : nat) (heap : list Event) (newitem : Event)
    (startpos pos : nat) : list Event :=
  match fuel with
  | O => <[pos := newitem]> heap
  | S fuel' =>
      if bool_decide (startpos < pos) then
        let parent := heap !!! parentpos pos in
        if Event_lt newitem parent then
          siftdown_loop fuel' (<[pos := parent]> heap) newitem
            startpos (parentpos pos)
        else <[pos := newitem]> heap
      else <[pos := newitem]> heap
  end.

Definition _siftdown (heap : list Event) (startpos pos : nat) : list Event :=
  siftdown_loop pos heap (heap !!! pos) startpos pos.

(** The [while childpos < endpos] loop of [_siftup]: returns the heap
    with the smaller children moved up and the position of the leaf
    that is left empty. *)
Fixpoint siftup_loop (fuel : nat) (heap : list Event) (endpos pos : nat)
    : list Event * nat :=
  match fuel with
  | O => (heap, pos)
  | S fuel' =>
      let childpos := 2 * pos + 1 in
      if bool_decide (childpos < endpos) then
        let rightpos := childpos + 1 in
        let childpos :=
          if bool_decide (rightpos < endpos)
             && negb (Event_lt (heap !!! childpos) (heap !!! rightpos))
          then rightpos else childpos in
        siftup_loop fuel' (<[pos := heap !!! childpos]> heap) endpos childpos
      else (heap, pos)
  end.

Definition _siftup (heap : list Event) (pos : nat) : list Event :=
  let endpos := length heap in
  let startpos := pos in
  let newitem := heap !!! pos in
  let '(heap, pos) := siftup_loop endpos heap endpos pos in
  _siftdown (<[pos := newitem]> heap) startpos pos.

Definition heappush (heap : list Event) (item : Event) : list Event :=
  let heap := heap ++ [item] in
  _siftdown heap 0 (length heap - 1).

(** [None] stands for the [IndexError] of popping from an empty list. *)
Definition heappop (heap : list Event) : option (Event * list Event) :=
  match last heap with
  | None => None
  | Some lastelt =>
      let heap := removelast heap in
      match heap with
      | [] => Some (lastelt, heap)
      | returnitem :: _ => Some (returnitem, _siftup (<[0 := lastelt]> heap) 0)
      end
  end.

End heapq.

(** ** The [Attendant] class *)

Inductive Status : Type := active | inactive | overloaded.

#[global] Instance Status_eq_dec : EqDecision Status.
Proof. solve_decision. Defined.

Record Attendant : Type := mkAttendant {
  name : string;
  active_orders : list Float.t;
  status : Status;
  next_available : Float.t
}.

(** [Attendant.__init__] *)
Definition Attendant_init (name : string) : Attendant :=
  mkAttendant name [] active 0.

(** [Attendant.update_state] *)
Definition update_state (self : Attendant) (current_time : Float.t) : Attendant :=
  let active_orders :=
    List.filter (fun t => Py.float_gt (t + 5) current_time) (active_orders self) in
  let next_available :=
    match active_orders with
    | [] => current_time
    | [s0] => Py.max current_time (s0 + 3)
    | s0 :: s1 :: _ => Py.max (s0 + 5) (s1 + 3)
    end in
  mkAttendant (name self) active_orders (status self) next_available.

(** [Attendant.can_accept] *)
Definition can_accept (self : Attendant) (current_time : Float.t) : bool :=
  if negb (bool_decide (status self = active)) then false
  else Py.float_ge current_time (next_available self)
       && bool_decide (length (active_orders self) < 2).

(** [Attendant.start_order] *)
Definition start_order (self : Attendant) (start_time : Float.t) : Attendant :=
  mkAttendant (name self) (Py.sort (active_orders self ++ [start_time]))
    (status self) (next_available self).

(** [attendant.status = status], the attribute assignment. *)
Definition set_status (self : Attendant) (s : Status) : Attendant :=
  mkAttendant (name self) (active_orders self) s (next_available self).

(** ** The [Orchestrator] class *)

Record Orchestrator : Type := mkOrchestrator {
  attendants : Py.dict Attendant;
  event_queue : list Event;
  current_time : Float.t;
  processed : nat;
  rejected : nat
}.

(** What the [print] calls of the event handlers write. *)
Inductive Output : Type :=
| Order_accepted (t : Float.t) (by_ : string)
| Order_rejected (t : Float.t)
| Order_completed (t : Float.t) (by_ : string).

(** The state outside the orchestrator object: how many times
    [random.random()] has been called, and the lines printed so far. *)
Record Env : Type := mkEnv {
  random_calls : nat;
  stdout : list Output
}.

(** A call either returns or raises [KeyError]; in both cases the
    mutations made so far are kept. *)
Inductive result (A : Type) : Type :=
| Return (a : A)
| KeyError (key : string) (a : A).
Arguments Return {A} a.
Arguments KeyError {A} key a.

Definition state_of {A} (r : result A) : A :=
  match r with Return a => a | KeyError _ a => a end.

Definition returns {A} (r : result A) : bool :=
  match r with Return _ => true | KeyError _ _ => false end.

(** [Orchestrator.__init__]: the dict comprehension [{a.name: a for a in attendants}]. *)
Definition Orchestrator_init (attendants : list Attendant) : Orchestrator :=
  mkOrchestrator
    (foldl (fun d a => Py.dict_set d (name a) a) [] attendants)
    [] 0 0 0.

(** [Orchestrator.add_order] *)
Definition add_order (self : Orchestrator) (arrival_time : Float.t) : Orchestrator :=
  mkOrchestrator (attendants self)
    (heapq.heappush (event_queue self) (mkEvent arrival_time order_arrival []))
    (current_time self) (processed self) (rejected self).

Definition with_attendants (self : Orchestrator) (d : Py.dict Attendant)
    : Orchestrator :=
  mkOrchestrator d (event_queue self) (current_time self)
    (processed self) (rejected self).

(** [Orchestrator.update_attendant_status] *)
Definition update_attendant_status (self : Orchestrator) (name : string)
    (status : Status) : result Orchestrator :=
  match Py.dict_get (attendants self) name with
  | None => KeyError name self
  | Some a =>
      let a := set_status a status in
      let a := if bool_decide (status = active)
               then update_state a (current_time self) else a in
      Return (with_attendants self (Py.dict_set (attendants self) name a))
  end.

(** [Orchestrator.handle_order_completion] *)
Definition handle_order_completion (self : Orchestrator) (env : Env)
    (attendant_name : string) : result (Orchestrator * Env) :=
  let env := mkEnv (random_calls env)
               (stdout env ++ [Order_completed (current_time self) attendant_name]) in
  match Py.dict_get (attendants self) attendant_name with
  | None => KeyError attendant_name (self, env)
  | Some a =>
      Return (with_attendants self
                (Py.dict_set (attendants self) attendant_name
                   (update_state a (current_time self))), env)
  end.

(** The entries of the [candidates] list: [((len, random), name)]. *)
Definition Candidate : Type := (nat * Float.t) * string.

(** [<] on these tuples, as Python compares tuples: the first position
    where the two sides differ decides. *)
Definition priority_eq (p q : nat * Float.t) : bool :=
  Nat.eqb p.1 q.1 && Py.float_eq p.2 q.2.

Definition priority_lt (p q : nat * Float.t) : bool :=
  if negb (Nat.eqb p.1 q.1) then Nat.ltb p.1 q.1
  else if negb (Py.float_eq p.2 q.2) then Py.float_lt p.2 q.2
  else false.

Definition Candidate_lt (x y : Candidate) : bool :=
  if negb (priority_eq x.1 y.1) then priority_lt x.1 y.1
  else if negb (String.eqb x.2 y.2) then String.ltb x.2 y.2
  else false.

(** [min(candidates)] on a non-empty list: the first smallest entry. *)
Definition min_from (first : Candidate) (rest : list Candidate) : Candidate :=
  foldl (fun m x => if Candidate_lt x m then x else m) first rest.

Section Simulation.

(** [random_random n] is what the [n]-th call of [random.random()] of
    the run returns. *)
Variable random_random : nat -> Float.t.

(** The [for name, attendant in self.attendants.items()] loop of
    [handle_order_arrival]: every attendant is updated, and those that
    can accept are appended to [candidates] with a fresh random key. *)
Fixpoint collect_candidates (items : Py.dict Attendant) (current_time : Float.t)
    (calls : nat) : Py.dict Attendant * list Candidate * nat :=
  match items with
  | [] => ([], [], calls)
  | (name, attendant) :: items' =>
      let attendant := update_state attendant current_time in
      if can_accept attendant current_time then
        let priority := (length (active_orders attendant), random_random calls) in
        let '(d, candidates, calls') :=
          collect_candidates items' current_time (S calls) in
        ((name, attendant) :: d, (priority, name) :: candidates, calls')
      else
        let '(d, candidates, calls') :=
          collect_candidates items' current_time calls in
        ((name, attendant) :: d, candidates, calls')
  end.

(** [Orchestrator.handle_order_arrival] *)
Definition handle_order_arrival (self : Orchestrator) (env : Env)
    : result (Orchestrator * Env) :=
  let '(d, candidates, calls) :=
    collect_candidates (attendants self) (current_time self) (random_calls env) in
  let self := with_attendants self d in
  let env := mkEnv calls (stdout env) in
  match candidates with
  | first :: rest =>
      let best := (min_from first rest).2 in
      match Py.dict_get (attendants self) best with
      | None => KeyError best (self, env)
      | Some a =>
          let d := Py.dict_set (attendants self) best
                     (start_order a (current_time self)) in
          let queue :=
            heapq.heappush (event_queue self)
              (mkEvent (current_time self + 5) order_completion
                 [("attendant"%string, best)]) in
          Return
            (mkOrchestrator d queue (current_time self)
               (processed self + 1) (rejected self),
             mkEnv calls (stdout env ++ [Order_accepted (current_time self) best]))
      end
  | [] =>
      Return
        (mkOrchestrator (attendants self) (event_queue self) (current_time self)
           (processed self) (rejected self + 1),
         mkEnv calls (stdout env ++ [Order_rejected (current_time self)]))
  end.

(** One iteration of the [while self.event_queue] loop, for the event
    that [heappop] returned and the queue it left. *)
Definition dispatch (self : Orchestrator) (env : Env) (event : Event)
    (queue : list Event) : result (Orchestrator * Env) :=
  let self := mkOrchestrator (attendants self) queue (time event)
                (processed self) (rejected self) in
  match type event with
  | order_arrival => handle_order_arrival self env
  | order_completion =>
      match Py.dict_get (data event) "attendant" with
      | None => KeyError "attendant" (self, env)
      | Some attendant_name => handle_order_completion self env attendant_name
      end
  end.

(** [Orchestrator.process_events].  The test [while self.event_queue]
    fails exactly when [heappop] has nothing to pop.  [None]: the loop
    needs more than [fuel] iterations. *)
Fixpoint process_events (fuel : nat) (self : Orchestrator) (env : Env)
    : option (result (Orchestrator * Env)) :=
  match heapq.heappop (event_queue self) with
  | None => Some (Return (self, env))
  | Some (event, queue) =>
      match fuel with
      | O => None
      | S fuel' =>
          match dispatch self env event queue with
          | Return (self, env) => process_events fuel' self env
          | KeyError k st => Some (KeyError k st)
          end
      end
  end.

(** The same loop, also recording the events it pops, in order. *)
Fixpoint process_events_trace (fuel : nat) (self : Orchestrator) (env : Env)
    : option (list Event * result (Orchestrator * Env)) :=
  match heapq.heappop (event_queue self) with
  | None => Some ([], Return (self, env))
  | Some (event, queue) =>
      match fuel with
      | O => None
      | S fuel' =>
          match dispatch self env event queue with
          | Return (self, env) =>
              match process_events_trace fuel' self env with
              | Some (popped, r) => Some (event :: popped, r)
              | None => None
              end
          | KeyError k st => Some ([event], KeyError k st)
          end
      end
  end.

(** The body of the [while] loop on the whole state: pop the earliest
    event and handle it.  With an empty queue there is no iteration. *)
Definition iteration (st : Orchestrator * Env) : Orchestrator * Env :=
  match heapq.heappop (event_queue st.1) with
  | Some (event, queue) => state_of (dispatch st.1 st.2 event queue)
  | None => st
  end.

End Simulation.

(** * Specification-level definitions *)

(** ** [Attendant] *)

(** The test of the list comprehension of [update_state]. *)
Definition kept (current_time : Float.t) (t : Float.t) : bool :=
  Py.float_gt (t + 5) current_time.

(** [Worker.setStatus(newStatus, currentTime)], written after the
    specification: set the status and, when the new status is Active,
    refresh at the given time. *)
Definition Worker_setStatus (w : Attendant) (newStatus : Status)
    (currentTime : Float.t) : Attendant :=
  let w := set_status w newStatus in
  match newStatus with
  | active => update_state w currentTime
  | _ => w
  end.

(** ** [heapq] *)

(** The child that [_siftup] moves up. *)
Definition smaller_child (heap : list Event) (endpos pos : nat) : nat :=
  if bool_decide (2 * pos + 1 + 1 < endpos)
     && negb (Event_lt (heap !!! (2 * pos + 1)) (heap !!! (2 * pos + 1 + 1)))
  then 2 * pos + 1 + 1 else 2 * pos + 1.

Definition le_time (a b : Event) : Prop := (time a <= time b)%F.

(** The heap invariant of [heapq]: [heap[(k - 1) >> 1] <= heap[k]] for
    every position [k] but the root. *)
Definition heap_ok (heap : list Event) : Prop :=
  forall i, 0 < i < length heap -> le_time (heap !!! heapq.parentpos i) (heap !!! i).

(** Invariant of the loop of [_siftdown]: the heap order holds on every
    edge that does not enter the hole at [pos], and both [newitem] and
    the parent of the hole are below the children of the hole. *)
Definition siftdown_inv (heap : list Event) (newitem : Event) (pos : nat) : Prop :=
  pos < length heap /\
  (forall i, 0 < i < length heap -> i <> pos ->
     le_time (heap !!! heapq.parentpos i) (heap !!! i)) /\
  (forall c, 0 < c < length heap -> heapq.parentpos c = pos ->
     le_time newitem (heap !!! c) /\
     (0 < pos -> le_time (heap !!! heapq.parentpos pos) (heap !!! c))).

(** Invariant of the loop of [_siftup]: the heap order holds on every
    edge that does not leave the hole at [pos], and the parent of the
    hole is below the children of the hole. *)
Definition siftup_inv (heap : list Event) (pos : nat) : Prop :=
  pos < length heap /\
  (forall i, 0 < i < length heap -> heapq.parentpos i <> pos ->
     le_time (heap !!! heapq.parentpos i) (heap !!! i)) /\
  (0 < pos -> forall c, 0 < c < length heap -> heapq.parentpos c = pos ->
     le_time (heap !!! heapq.parentpos pos) (heap !!! c)).

(** ** [min] on the candidates *)

(** The order of the [candidates] entries, as a proposition. *)
Definition Candidate_before (x y : Candidate) : Prop :=
  x.1.1 < y.1.1 \/
  (x.1.1 = y.1.1 /\
   ((x.1.2 < y.1.2)%F \/
    (x.1.2 = y.1.2 /\ OrderedTypeEx.String_as_OT.lt x.2 y.2))).

(** The orchestrator at the start of an event handler: the event has
    been popped and the clock set to its time. *)
Definition at_event (self : Orchestrator) (event : Event) (queue : list Event)
    : Orchestrator :=
  mkOrchestrator (attendants self) queue (time event) (processed self) (rejected self).

Definition completion_of (c : Float.t) (best : string) : Event :=
  mkEvent (c + 5) order_completion [("attendant"%string, best)].

(** ** The assignment policy, step by step *)

(** Step 1: every attendant of the roster refreshed at the current time. *)
Definition refreshed (d : Py.dict Attendant) (c : Float.t) : Py.dict Attendant :=
  map (fun na => (na.1, update_state na.2 c)) d.

(** Step 2: the candidate set, in roster order. *)
Definition accepting (d : Py.dict Attendant) (c : Float.t) : Py.dict Attendant :=
  List.filter (fun na => can_accept na.2 c) d.

(** The pair [(len(activeOrders), tiebreakKey)] of a candidate with key [r]. *)
Definition priority_of (a : Attendant) (r : Float.t) : nat * Float.t :=
  (length (active_orders a), r).

(** [p] is not above [q] in the lexicographic order on pairs. *)
Definition priority_le (p q : nat * Float.t) : Prop :=
  p.1 < q.1 \/ (p.1 = q.1 /\ (p.2 <= q.2)%F).

(** ** Well-formed orchestrators *)

Definition capacity_ok (d : Py.dict Attendant) : Prop :=
  forall n a, (n, a) ∈ d -> length (active_orders a) <= 2.

(** Every completion event of the queue names an attendant of the roster. *)
Definition completions_ok (keys : list string) (queue : list Event) : Prop :=
  forall e, e ∈ queue -> type e = order_completion ->
    exists n, Py.dict_get (data e) "attendant" = Some n /\ n ∈ keys.

Record wf (self : Orchestrator) : Prop := mk_wf {
  wf_keys : NoDup (Py.keys (attendants self));
  wf_capacity : capacity_ok (attendants self);
  wf_heap : heap_ok (event_queue self);
  wf_completions : completions_ok (Py.keys (attendants self)) (event_queue self)
}.

(** The work that an event of the queue stands for: an arrival may leave
    a completion behind, a completion leaves nothing. *)
Definition weight (e : Event) : nat :=
  match type e with order_arrival => 2 | order_completion => 1 end.

Definition pending_work (queue : list Event) : nat := sum_list_with weight queue.

Definition is_arrival (e : Event) : bool :=
  match type e with order_arrival => true | order_completion => false end.

Definition arrivals (popped : list Event) : nat :=
  length (List.filter is_arrival popped).

Section Reachable.

Variable random_random : nat -> Float.t.

(** The [candidates] list that the loop builds for the candidate set
    [l], when [calls] random numbers have been drawn before. *)
Fixpoint keyed (calls : nat) (l : Py.dict Attendant) : list Candidate :=
  match l with
  | [] => []
  | na :: l' =>
      (priority_of na.2 (random_random calls), na.1) :: keyed (S calls) l'
  end.

(** The orchestrators that the public operations can produce, the ones
    between two iterations of the event loop included.  An operation
    that raises leaves the orchestrator it had reached. *)
Inductive reachable : Orchestrator -> Prop :=
| reachable_init (names : list string) :
    reachable (Orchestrator_init (map Attendant_init names))
| reachable_add_order self t :
    reachable self -> reachable (add_order self t)
| reachable_update_attendant_status self name s :
    reachable self -> reachable (state_of (update_attendant_status self name s))
| reachable_iteration self env event queue :
    reachable self ->
    heapq.heappop (event_queue self) = Some (event, queue) ->
    reachable (state_of (dispatch random_random self env event queue)).1
| reachable_process_events self env fuel r :
    reachable self ->
    process_events random_random fuel self env = Some r ->
    reachable (state_of r).1.

End Reachable.

(** ** A small scenario *)

(** The roster of the [__main__] block of the source. *)
Definition main_orchestrator : Orchestrator :=
  Orchestrator_init [Attendant_init "Alice"; Attendant_init "Bob"].

(** A random source that favours the second draw. *)
Definition example_random (n : nat) : Float.t :=
  match n with O => Float.of_bits 1 (-1) | S _ => Float.of_bits 1 (-2) end.

(** Alice is switched off, then two orders arrive, at times 0 and 3. *)
Definition example_start : Orchestrator :=
  add_order
    (add_order (state_of (update_attendant_status main_orchestrator "Alice" inactive)) 0)
    3.

Definition example_after (n : nat) : Orchestrator * Env :=
  Nat.iter n (iteration example_random) (example_start, mkEnv 0 []).

(** One attendant and one order, submitted for a time before the clock
    of a fresh orchestrator. *)
Definition early_start : Orchestrator :=
  add_order (Orchestrator_init [Attendant_init "Alice"]) (Float.of_int (-2)).

(** One attendant and two orders, at 1.02 and at 4.02, which is what
    [1.02 + 3] rounds to. *)
Definition cooldown_start : Orchestrator :=
  add_order
    (add_order (Orchestrator_init [Attendant_init "Alice"])
       (Float.of_bits 4593671619917906 (-52)))
    (Float.of_bits 4526117625507348 (-50)).

(** One attendant and two orders, at 2^53 + 2 and at 2^53 + 4, where the
    doubles are the even integers. *)
Definition large_start : Orchestrator :=
  add_order
    (add_order (Orchestrator_init [Attendant_init "Alice"])
       (Float.of_int 9007199254740994))
    (Float.of_int 9007199254740996).

(** Sums to compare with [SFadd]: halfway cases, a sum that loses bits,
    a subnormal, the largest double and an infinity. *)
Definition add_samples : list (Float.t * Float.t) :=
  [ (Float.of_bits 4593671619917906 (-52), Float.of_int 3);
    (Float.of_bits 5404319552844595 (-54), Float.of_int 5);
    (Float.of_bits 5044031582654956 (-54), Float.of_int 3);
    (Float.of_int 9007199254740994, Float.of_int 3);
    (Float.of_int 9007199254740994, Float.of_int 5);
    (Float.of_int 9007199254740996, Float.of_int 5);
    (Float.of_int (-2), Float.of_int 5);
    (Float.of_int (-9007199254740994), Float.of_int 3);
    (Float.of_bits 1 (-1074), Float.of_int 5);
    (Float.of_bits 9007199254740991 971, Float.of_int 5);
    (Float.of_bits 9007199254740991 971, Float.of_bits 9007199254740991 971);
    (Float.of_bits 1 1024, Float.of_int 5) ].

(** ** Orders in flight *)

(** At most two orders, the second started at [s0 + 3] or later and
    before [s0 + 5], where [s0] is the start of the first and the sums
    are the rounded ones of the source. *)
Definition pipelined (l : list Float.t) : Prop :=
  match l with
  | [] | [_] => True
  | [s0; s1] => (s0 + 3 <= s1)%F /\ (s1 < s0 + 5)%F
  | _ => False
  end.

(** Every order in flight is pipelined and has its completion event in
    the queue. *)
Definition orders_ok (self : Orchestrator) : Prop :=
  forall n a, (n, a) ∈ attendants self ->
    pipelined (active_orders a) /\
    forall s, s ∈ active_orders a -> completion_of s n ∈ event_queue self.

(** What the event loop never changes of the roster: the keys, and the
    name and status of each attendant. *)
Definition statuses (d : Py.dict Attendant) : list (string * (string * Status)) :=
  map (fun na => (na.1, (name na.2, status na.2))) d.

(** The time at the head of a printed line. *)
Definition Output_time (o : Output) : Float.t :=
  match o with
  | Order_accepted t _ => t
  | Order_rejected t => t
  | Order_completed t _ => t
  end.

(** ** The [__main__] block *)

(** The two lines printed after the run. *)
Inductive Total : Type :=
| Total_processed (n : nat)
| Total_rejected (n : nat).

Section Main.

Variable random_random : nat -> Float.t.

(** [random.uniform(a, b)], which is [a + (b - a) * random()], at the
    call number [calls] of the random source; [a] and [b] are ints in the
    source, so the difference is an int and the product and the sum are
    the rounded ones. *)
Definition random_uniform (a b : Z) (calls : nat) : Float.t :=
  (Float.of_int a + Float.mul_int (b - a) (random_random calls))%F.

(** The block up to the call of [process_events]: two attendants, twenty
    arrivals at random times, one arrival at 10 and a completion event
    for Bob at 10 pushed on the queue directly. *)
Definition main_setup : Orchestrator * Env :=
  let attendants' := [Attendant_init "Alice"; Attendant_init "Bob"] in
  let orchestrator := Orchestrator_init attendants' in
  let orchestrator :=
    foldl (fun o calls => add_order o (random_uniform 0 30 calls))
      orchestrator (seq 0 20) in
  let orchestrator := add_order orchestrator 10 in
  let orchestrator :=
    mkOrchestrator (attendants orchestrator)
      (heapq.heappush (event_queue orchestrator)
         (mkEvent 10 order_completion [("attendant"%string, "Bob"%string)]))
      (current_time orchestrator) (processed orchestrator) (rejected orchestrator) in
  (orchestrator, mkEnv 20 []).

(** The whole block: the outcome of [process_events] and, when it
    returns, the two totals printed. *)
Definition main (fuel : nat) : option (result (Orchestrator * Env) * list Total) :=
  match process_events random_random fuel main_setup.1 main_setup.2 with
  | None => None
  | Some (Return (orchestrator, env)) =>
      Some (Return (orchestrator, env),
            [Total_processed (processed orchestrator);
             Total_rejected (rejected orchestrator)])
  | Some (KeyError k st) => Some (KeyError k st, [])
  end.

End Main.

(** * Properties *)

(** ** Rounding *)

Module FloatFacts.
Import Float.

Local Open Scope Z_scope.

Lemma rne_nearest (a k : Z) : 0 <= k -> rne a k = nearest a (2 ^ k).
Proof.
  intros Hk. unfold rne, nearest.
  by rewrite Z.shiftr_div_pow2, Z.land_ones, Z.shiftl_1_l by done.
Qed.

Lemma grid_exp_nonneg (n : Z) : 0 <= grid_exp n.
Proof. unfold grid_exp. lia. Qed.

Lemma round_pos_eq (a : Z) :
  round_pos a = nearest a (2 ^ grid_exp a) * 2 ^ grid_exp a.
Proof.
  unfold round_pos. pose proof (grid_exp_nonneg a).
  by rewrite Z.shiftl_mul_pow2, rne_nearest by done.
Qed.

Lemma on_grid_eq (n : Z) :
  on_grid n = (Z.abs n mod 2 ^ grid_exp (Z.abs n) =? 0).
Proof. unfold on_grid. by rewrite Z.land_ones by apply grid_exp_nonneg. Qed.

Lemma inf_units_eq : inf_units = 2 ^ 2098.
Proof. apply Z.shiftl_1_l. Qed.

Lemma scale_eq : scale = 2 ^ 1074.
Proof. apply Z.shiftl_1_l. Qed.

Lemma nearest_bounds (a d : Z) : 0 < d -> a / d <= nearest a d <= a / d + 1.
Proof.
  intros Hd. unfold nearest.
  destruct (2 * (a mod d) ?= d); [destruct (Z.even (a / d))| |]; lia.
Qed.

Lemma nearest_exact (a d : Z) : 0 < d -> a mod d = 0 -> nearest a d * d = a.
Proof.
  intros Hd Hm. unfold nearest. rewrite Hm.
  pose proof (Z.div_mod a d ltac:(lia)) as Ha. rewrite Hm in Ha.
  destruct (Z.compare_spec (2 * 0) d); lia.
Qed.

Lemma nearest_mono (a b d : Z) : 0 < d -> a <= b -> nearest a d <= nearest b d.
Proof.
  intros Hd Hab.
  pose proof (Z.div_le_mono a b d Hd Hab) as Hq.
  destruct (Z.eq_dec (a / d) (b / d)) as [Heq|Hne].
  - pose proof (Z.div_mod a d ltac:(lia)) as Ha.
    pose proof (Z.div_mod b d ltac:(lia)) as Hb.
    unfold nearest. rewrite Heq in *.
    destruct (Z.compare_spec (2 * (a mod d)) d),
             (Z.compare_spec (2 * (b mod d)) d),
             (Z.even (b / d)); lia.
  - pose proof (nearest_bounds a d Hd). pose proof (nearest_bounds b d Hd). lia.
Qed.

Lemma grid_exp_mono (a b : Z) : a <= b -> grid_exp a <= grid_exp b.
Proof. intros H. unfold grid_exp. pose proof (Z.log2_le_mono a b H). lia. Qed.

Lemma grid_exp_small (a : Z) : a < 2 ^ 53 -> grid_exp a = 0.
Proof.
  intros H. unfold grid_exp.
  destruct (Z.le_gt_cases a 0) as [H0|H0].
  - rewrite Z.log2_nonpos by done. lia.
  - apply Z.log2_lt_pow2 in H; lia.
Qed.

Lemma grid_exp_big (a : Z) :
  2 ^ 53 <= a ->
  1 <= grid_exp a /\ 2 ^ (52 + grid_exp a) <= a < 2 ^ (53 + grid_exp a).
Proof.
  intros H. assert (0 < a) as Hpos by (pose proof (Z.pow_pos_nonneg 2 53); lia).
  assert (53 <= Z.log2 a) as Hl by (apply Z.log2_le_pow2; lia).
  unfold grid_exp. rewrite Z.max_r by lia.
  pose proof (Z.log2_spec a Hpos) as Hs.
  replace (52 + (Z.log2 a - 52)) with (Z.log2 a) by lia.
  replace (53 + (Z.log2 a - 52)) with (Z.succ (Z.log2 a)) by lia.
  split; [lia | exact Hs].
Qed.

Lemma round_pos_small (a : Z) : 0 <= a < 2 ^ 53 -> round_pos a = a.
Proof.
  intros H. rewrite round_pos_eq, grid_exp_small by lia.
  change (2 ^ 0) with 1. apply nearest_exact; [lia | apply Z.mod_1_r].
Qed.

(** The mantissa of a rounded number of 54 bits or more. *)
Lemma round_pos_mantissa (a : Z) :
  2 ^ 53 <= a ->
  2 ^ 52 <= nearest a (2 ^ grid_exp a) <= 2 ^ 53.
Proof.
  intros H. destruct (grid_exp_big a H) as (Hk & Hlo & Hhi).
  set (k := grid_exp a) in *.
  assert (0 < 2 ^ k) as Hp by (apply Z.pow_pos_nonneg; lia).
  rewrite Z.pow_add_r in Hlo, Hhi by lia.
  pose proof (nearest_bounds a (2 ^ k) Hp) as Hb.
  assert (2 ^ 52 <= a / 2 ^ k) by (apply Z.div_le_lower_bound; lia).
  assert (a / 2 ^ k < 2 ^ 53) by (apply Z.div_lt_upper_bound; lia).
  lia.
Qed.

Lemma round_pos_upper (a : Z) : 0 <= a -> round_pos a <= 2 ^ (53 + grid_exp a).
Proof.
  intros H0. destruct (Z.lt_ge_cases a (2 ^ 53)) as [Hs|Hb].
  - rewrite round_pos_small, grid_exp_small by lia. change (53 + 0) with 53. lia.
  - pose proof (round_pos_mantissa a Hb) as Hm. pose proof (grid_exp_nonneg a) as Hk.
    rewrite round_pos_eq, Z.pow_add_r by lia.
    apply Z.mul_le_mono_nonneg_r; [apply Z.pow_nonneg|]; lia.
Qed.

Lemma round_pos_lower (a : Z) : 2 ^ 53 <= a -> 2 ^ (52 + grid_exp a) <= round_pos a.
Proof.
  intros Hb. pose proof (round_pos_mantissa a Hb) as Hm.
  pose proof (grid_exp_nonneg a) as Hk.
  rewrite round_pos_eq, Z.pow_add_r by lia.
  apply Z.mul_le_mono_nonneg_r; [apply Z.pow_nonneg|]; lia.
Qed.

Lemma round_pos_nonneg (a : Z) : 0 <= a -> 0 <= round_pos a.
Proof.
  intros H0. destruct (Z.lt_ge_cases a (2 ^ 53)) as [Hs|Hb].
  - rewrite round_pos_small; lia.
  - pose proof (round_pos_lower a Hb). pose proof (Z.pow_nonneg 2 (52 + grid_exp a)). lia.
Qed.

Lemma round_pos_mono (a b : Z) : 0 <= a -> a <= b -> round_pos a <= round_pos b.
Proof.
  intros H0 Hab. pose proof (grid_exp_mono a b Hab) as Hk.
  destruct (Z.eq_dec (grid_exp a) (grid_exp b)) as [Heq|Hne].
  - rewrite !round_pos_eq, Heq.
    assert (0 < 2 ^ grid_exp b) as Hp
      by (apply Z.pow_pos_nonneg; [lia | apply grid_exp_nonneg]).
    apply Z.mul_le_mono_nonneg_r; [lia | by apply nearest_mono].
  - assert (2 ^ 53 <= b) as Hb.
    { destruct (Z.lt_ge_cases b (2 ^ 53)) as [Hs|?]; [|done].
      pose proof (grid_exp_nonneg a). rewrite (grid_exp_small b) in * by done. lia. }
    pose proof (round_pos_upper a H0) as Hu. pose proof (round_pos_lower b Hb) as Hl.
    assert (2 ^ (53 + grid_exp a) <= 2 ^ (52 + grid_exp b))
      by (apply Z.pow_le_mono_r; lia).
    lia.
Qed.

Lemma round_pos_fix (n : Z) :
  0 <= n -> n mod 2 ^ grid_exp n = 0 -> round_pos n = n.
Proof.
  intros H0 Hm. rewrite round_pos_eq. apply nearest_exact; [|done].
  apply Z.pow_pos_nonneg; [lia | apply grid_exp_nonneg].
Qed.

Lemma round_pos_on_grid (a : Z) :
  0 <= a -> round_pos a mod 2 ^ grid_exp (round_pos a) = 0.
Proof.
  intros H0. destruct (Z.lt_ge_cases a (2 ^ 53)) as [Hs|Hb].
  - rewrite round_pos_small, grid_exp_small by lia. apply Z.mod_1_r.
  - pose proof (round_pos_mantissa a Hb) as Hm.
    destruct (grid_exp_big a Hb) as (Hk & _).
    rewrite round_pos_eq. set (k := grid_exp a) in *.
    set (m := nearest a (2 ^ k)) in *.
    assert (0 < 2 ^ k) as Hp by (apply Z.pow_pos_nonneg; lia).
    assert (Z.log2 (m * 2 ^ k) = k + Z.log2 m) as Hlog
      by (apply Z.log2_mul_pow2; lia).
    unfold grid_exp. rewrite Hlog.
    destruct (Z.eq_dec m (2 ^ 53)) as [->|Hne].
    + rewrite Z.log2_pow2 by lia. rewrite Z.max_r by lia.
      replace (k + 53 - 52) with (k + 1) by lia.
      rewrite <- Z.pow_add_r by lia. replace (53 + k) with (52 + (k + 1)) by lia.
      rewrite Z.pow_add_r by lia. apply Z.mod_mul.
      pose proof (Z.pow_pos_nonneg 2 (k + 1)); lia.
    + assert (Z.log2 m = 52) as ->.
      { apply Z.log2_unique; [lia|]. change (2 ^ (52 + 1)) with (2 ^ 53). lia. }
      rewrite Z.max_r by lia. replace (k + 52 - 52) with k by lia.
      apply Z.mod_mul. lia.
Qed.

Lemma round53_mono (a b : Z) : a <= b -> round53 a <= round53 b.
Proof.
  intros Hab. unfold round53.
  destruct (Z.ltb_spec a 0), (Z.ltb_spec b 0); try lia.
  - pose proof (round_pos_mono (- b) (- a)). lia.
  - pose proof (round_pos_nonneg (- a)). pose proof (round_pos_nonneg b). lia.
  - by apply round_pos_mono.
Qed.

Lemma round53_fix (n : Z) : on_grid n = true -> round53 n = n.
Proof.
  rewrite on_grid_eq. unfold round53. intros H. apply Z.eqb_eq in H.
  destruct (Z.ltb_spec n 0).
  - rewrite Z.abs_neq in H by lia. rewrite round_pos_fix; lia.
  - rewrite Z.abs_eq in H by lia. apply round_pos_fix; lia.
Qed.

Lemma round53_on_grid (a : Z) : on_grid (round53 a) = true.
Proof.
  rewrite on_grid_eq. unfold round53. apply Z.eqb_eq.
  destruct (Z.ltb_spec a 0).
  - pose proof (round_pos_nonneg (- a)).
    rewrite Z.abs_neq by lia. rewrite Z.opp_involutive.
    apply round_pos_on_grid. lia.
  - pose proof (round_pos_nonneg a).
    rewrite Z.abs_eq by lia. by apply round_pos_on_grid.
Qed.

Lemma inf_units_pos : 0 < inf_units.
Proof. rewrite inf_units_eq. apply Z.pow_pos_nonneg; lia. Qed.

Lemma on_grid_inf : on_grid inf_units = true /\ on_grid (- inf_units) = true.
Proof.
  assert (Z.abs inf_units mod 2 ^ grid_exp (Z.abs inf_units) = 0) as H.
  { pose proof inf_units_pos. rewrite Z.abs_eq by lia.
    rewrite inf_units_eq. unfold grid_exp. rewrite Z.log2_pow2 by lia.
    change (Z.max 0 (2098 - 52)) with 2046.
    change 2098 with (52 + 2046). rewrite Z.pow_add_r by lia.
    apply Z.mod_mul. pose proof (Z.pow_pos_nonneg 2 2046). lia. }
  rewrite !on_grid_eq, Z.abs_opp. split; by apply Z.eqb_eq.
Qed.

Lemma clamp_range (a : Z) : - inf_units <= clamp a <= inf_units.
Proof.
  pose proof inf_units_pos. unfold clamp.
  destruct (Z.leb_spec inf_units a), (Z.leb_spec a (- inf_units)); lia.
Qed.

Lemma clamp_mono (a b : Z) : a <= b -> clamp a <= clamp b.
Proof.
  intros H. pose proof inf_units_pos. unfold clamp.
  destruct (Z.leb_spec inf_units a), (Z.leb_spec inf_units b),
           (Z.leb_spec a (- inf_units)), (Z.leb_spec b (- inf_units)); lia.
Qed.

Lemma clamp_id (n : Z) : Z.abs n <= inf_units -> clamp n = n.
Proof.
  intros H. unfold clamp.
  destruct (Z.leb_spec inf_units n), (Z.leb_spec n (- inf_units)); lia.
Qed.

Lemma is_float_clamp (n : Z) : on_grid n = true -> is_float (clamp n) = true.
Proof.
  intros Hg. pose proof inf_units_pos. destruct on_grid_inf as [Hp Hn].
  unfold is_float, clamp.
  destruct (Z.leb_spec inf_units n); [|destruct (Z.leb_spec n (- inf_units))].
  - rewrite Hp, andb_true_r. apply Z.leb_le. lia.
  - rewrite Hn, andb_true_r. apply Z.leb_le. lia.
  - rewrite Hg, andb_true_r. apply Z.leb_le. lia.
Qed.

Lemma units_of_units (n : Z) : is_float n = true -> units (of_units n) = n.
Proof.
  intros H. unfold of_units.
  generalize (eq_refl (is_float n)).
  generalize (is_float n) at 2 3. intros [] ?; [done | congruence].
Qed.

(** What the arithmetic gives, in units. *)
Lemma units_rounded (a : Z) :
  units (of_units (clamp (round53 a))) = clamp (round53 a).
Proof. apply units_of_units, is_float_clamp, round53_on_grid. Qed.

Lemma units_range (x : t) : Z.abs (units x) <= inf_units.
Proof.
  destruct x as [n H]. simpl. unfold is_float in H.
  apply andb_true_iff in H as [H _]. by apply Z.leb_le.
Qed.

Lemma units_fix (x : t) : clamp (round53 (units x)) = units x.
Proof.
  destruct x as [n H]. simpl. pose proof H as H'. unfold is_float in H'.
  apply andb_true_iff in H' as [Hr Hg]. apply Z.leb_le in Hr.
  rewrite round53_fix by done. by apply clamp_id.
Qed.

(** Two floats with the same units are the same float. *)
Lemma eq_units (x y : t) : units x = units y -> x = y.
Proof.
  destruct x as [n Hn], y as [m Hm]. simpl. intros ->.
  f_equal. apply UIP_dec, Bool.bool_dec.
Qed.

Lemma units_add (x y : t) :
  is_inf y = false ->
  units (add x y) =
    if is_inf x then units x else clamp (round53 (units x + units y)).
Proof.
  intros Hy. unfold add. rewrite Hy.
  destruct (is_inf x); [done | apply units_rounded].
Qed.

(** Adding a finite number is monotone in both arguments, and adding a
    finite number that is not negative does not go down. *)
Lemma add_mono_l (x x' y : t) :
  is_inf y = false -> le x x' -> le (add x y) (add x' y).
Proof.
  intros Hy Hle. unfold le in *. rewrite !units_add by done.
  pose proof (units_range x). pose proof (units_range x').
  pose proof inf_units_pos.
  assert (clamp (round53 (units x + units y)) <= clamp (round53 (units x' + units y)))
    by (apply clamp_mono, round53_mono; lia).
  pose proof (clamp_range (round53 (units x + units y))).
  pose proof (clamp_range (round53 (units x' + units y))).
  unfold is_inf.
  destruct (Z.eqb_spec (Z.abs (units x)) inf_units),
           (Z.eqb_spec (Z.abs (units x')) inf_units); lia.
Qed.

Lemma add_mono_r (x y y' : t) :
  is_inf y = false -> is_inf y' = false -> le y y' -> le (add x y) (add x y').
Proof.
  intros Hy Hy' Hle. unfold le in *. rewrite !units_add by done.
  destruct (is_inf x); [lia|]. apply clamp_mono, round53_mono. lia.
Qed.

Lemma add_nonneg (x y : t) :
  is_inf y = false -> 0 <= units y -> le x (add x y).
Proof.
  intros Hy H0. unfold le. rewrite units_add by done.
  destruct (is_inf x); [lia|].
  rewrite <- (units_fix x) at 1. apply clamp_mono, round53_mono. lia.
Qed.

End FloatFacts.

(** ** Float comparisons and the constants 3 and 5 *)

Lemma float_lt_true (a b : Float.t) : Py.float_lt a b = true <-> (a < b)%F.
Proof. apply Z.ltb_lt. Qed.

Lemma float_lt_false (a b : Float.t) : Py.float_lt a b = false <-> (b <= a)%F.
Proof. unfold Py.float_lt, Float.ltb, Float.le. rewrite Z.ltb_ge. done. Qed.

Lemma float_ge_true (a b : Float.t) : Py.float_ge a b = true <-> (b <= a)%F.
Proof. apply Z.leb_le. Qed.

Lemma float_ge_false (a b : Float.t) : Py.float_ge a b = false <-> (a < b)%F.
Proof. unfold Py.float_ge, Float.leb, Float.lt. rewrite Z.leb_gt. done. Qed.

Lemma float_gt_true (a b : Float.t) : Py.float_gt a b = true <-> (b < a)%F.
Proof. apply float_lt_true. Qed.

Lemma float_gt_false (a b : Float.t) : Py.float_gt a b = false <-> (a <= b)%F.
Proof. apply float_lt_false. Qed.

Lemma float_eq_true (a b : Float.t) : Py.float_eq a b = true <-> a = b.
Proof.
  unfold Py.float_eq, Float.eqb. rewrite Z.eqb_eq.
  split; [apply FloatFacts.eq_units | by intros ->].
Qed.

(** Case analysis on one comparison, leaving its meaning as a hypothesis. *)
Ltac float_case e :=
  let H := fresh "Hcmp" in
  destruct e eqn:H;
  [ first [ apply float_gt_true in H | apply float_lt_true in H
          | apply float_ge_true in H ]
  | first [ apply float_gt_false in H | apply float_lt_false in H
          | apply float_ge_false in H ] ].

(** Goals on the order of floats are goals on the order of integers. *)
Ltac float_lia := unfold le_time, Float.le, Float.lt in *; lia.

Lemma finite_3 : Float.is_inf 3 = false /\ (0 <= Float.units 3)%Z.
Proof. split; vm_compute; [reflexivity | discriminate]. Qed.

Lemma finite_5 : Float.is_inf 5 = false /\ (0 <= Float.units 5)%Z.
Proof. split; vm_compute; [reflexivity | discriminate]. Qed.

Lemma le_3_5 : (3 <= 5)%F.
Proof. vm_compute. discriminate. Qed.

(** What the proofs below use of the rounded sums [x + 3] and [x + 5]:
    they are not below [x], the first is not above the second, and both
    grow with [x]. *)
Lemma le_add_3 (x : Float.t) : (x <= x + 3)%F.
Proof. destruct finite_3. by apply FloatFacts.add_nonneg. Qed.

Lemma le_add_5 (x : Float.t) : (x <= x + 5)%F.
Proof. destruct finite_5. by apply FloatFacts.add_nonneg. Qed.

Lemma add_3_le_add_5 (x : Float.t) : (x + 3 <= x + 5)%F.
Proof.
  destruct finite_3, finite_5. apply FloatFacts.add_mono_r; [done | done | apply le_3_5].
Qed.

Lemma add_3_mono (x y : Float.t) : (x <= y)%F -> (x + 3 <= y + 3)%F.
Proof. destruct finite_3. by apply FloatFacts.add_mono_l. Qed.

Lemma add_5_mono (x y : Float.t) : (x <= y)%F -> (x + 5 <= y + 5)%F.
Proof. destruct finite_5. by apply FloatFacts.add_mono_l. Qed.

Lemma max_left (a b : Float.t) : (b <= a)%F -> Py.max a b = a.
Proof. intros H. unfold Py.max. float_case (Py.float_gt b a); [float_lia | done]. Qed.

Lemma max_right (a b : Float.t) : (a < b)%F -> Py.max a b = b.
Proof. intros H. unfold Py.max. float_case (Py.float_gt b a); [done | float_lia]. Qed.

(** [max] is the larger of the two. *)
Lemma max_spec (a b : Float.t) :
  Float.units (Py.max a b) = Z.max (Float.units a) (Float.units b).
Proof.
  unfold Py.max. float_case (Py.float_gt b a); unfold Float.lt, Float.le in *; lia.
Qed.

(** ** [Attendant.update_state] *)

Lemma update_state_orders (a : Attendant) (c : Float.t) :
  active_orders (update_state a c) = List.filter (kept c) (active_orders a).
Proof. reflexivity. Qed.

Lemma filter_kept_idem (c : Float.t) (l : list Float.t) :
  List.filter (kept c) (List.filter (kept c) l) = List.filter (kept c) l.
Proof.
  induction l as [|t l IH]; simpl; [done|].
  destruct (kept c t) eqn:Hk; simpl; [rewrite Hk, IH | ]; done.
Qed.

Lemma filter_kept_length (c : Float.t) (l : list Float.t) :
  length (List.filter (kept c) l) <= length l.
Proof.
  induction l as [|t l IH]; simpl; [lia|].
  destruct (kept c t); simpl; lia.
Qed.

(** C3, as stated with [t + 3] the sum of the two numbers, fails: the
    code compares and stores the double-precision sum.  With the single
    order [t = 2^53 + 2] and the time [c = 2^53 + 4], [t <= c < t + 3]
    holds, the sum [t + 3] is not a double and rounds to [c], and
    [update_state] sets [next_available] to [c], which is not [t + 3]. *)
Lemma single_order_cooldown_counterexample :
  let t := Float.of_int 9007199254740994 in
  let c := Float.of_int 9007199254740996 in
  let a := mkAttendant "Alice" [t] active 0 in
  active_orders a = [t] /\
  (t <= c)%F /\
  (Float.units c < Float.plus_int t 3)%Z /\
  (t + 3)%F = c /\
  next_available (update_state a c) = c /\
  Float.units (next_available (update_state a c)) <> Float.plus_int t 3.
Proof.
  cbv zeta. split; [reflexivity|].
  split; [vm_compute; discriminate|].
  split; [vm_compute; reflexivity|].
  split; [vm_compute; reflexivity|].
  split; [vm_compute; reflexivity|].
  vm_compute. discriminate.
Qed.

(** C3, amended. Single-order cooldown, with [t + 3] and [t + 5] the
    double-precision sums that the code computes: for a worker holding
    the single order [t], [update_state] at a time [c] with
    [t <= c < t + 3] sets [next_available] to [t + 3], and at a time
    [c >= t + 3] it sets [next_available] to [c], whether the order is
    still held ([c < t + 5]) or has been dropped ([t + 5 <= c]). *)
Theorem single_order_cooldown (a : Attendant) (t c : Float.t) :
  active_orders a = [t] ->
  ((t <= c)%F -> (c < t + 3)%F ->
     next_available (update_state a c) = (t + 3)%F) /\
  ((t + 3 <= c)%F ->
     next_available (update_state a c) = c /\
     active_orders (update_state a c) = if Py.float_gt (t + 5) c then [t] else []).
Proof.
  intros Ha. unfold update_state. rewrite Ha. simpl.
  pose proof (add_3_le_add_5 t) as H35.
  float_case (Py.float_gt (t + 5) c); simpl.
  - split.
    + intros _ Hlt. by apply max_right.
    + intros Hge. split; [by apply max_left | done].
  - split.
    + intros _ Hlt. float_lia.
    + intros _. done.
Qed.

Lemma single_order_cooldown_witness :
  next_available (update_state (mkAttendant "Alice" [1%F] active 0) 2) = (1 + 3)%F
  /\ next_available (update_state (mkAttendant "Alice" [1%F] active 0) 5) = 5%F
  /\ next_available (update_state (mkAttendant "Alice" [1%F] active 0) 6) = 6%F.
Proof.
  pose proof (single_order_cooldown (mkAttendant "Alice" [1%F] active 0) 1) as H.
  split; [|split].
  - apply (H 2%F); [reflexivity | vm_compute; discriminate | vm_compute; reflexivity].
  - apply (H 5%F); [reflexivity | vm_compute; discriminate].
  - apply (H 6%F); [reflexivity | vm_compute; discriminate].
Defined.

(** The cooldown of an order started at 0.28: the code stores the double
    next above 3.28, which is what [0.28 + 3] rounds to. *)
Example single_order_cooldown_rounding :
  let t := Float.of_bits 5044031582654956 (-54) in
  next_available (update_state (mkAttendant "Alice" [t] active 0) t)
  = Float.of_bits 7385903388887614 (-51).
Proof. vm_compute. reflexivity. Qed.

(** C4, as stated, fails: with orders started at 0 and 1, [update_state]
    at time 10 drops both and sets [next_available] to 10, not to
    [max (0 + 5) (1 + 3) = 5]. *)
Lemma double_order_gate_counterexample :
  active_orders (mkAttendant "Alice" [0%F; 1%F] active 0) = [0%F; 1%F] /\
  (0 <= 1)%F /\
  next_available (update_state (mkAttendant "Alice" [0%F; 1%F] active 0) 10) = 10%F /\
  Py.max (0 + 5) (1 + 3) = 5%F /\
  next_available (update_state (mkAttendant "Alice" [0%F; 1%F] active 0) 10)
    <> Py.max (0 + 5) (1 + 3).
Proof.
  split; [reflexivity|]. split; [vm_compute; discriminate|].
  split; [vm_compute; reflexivity|]. split; [vm_compute; reflexivity|].
  intros H. apply (f_equal Float.units) in H. vm_compute in H. discriminate.
Qed.

(** C4, amended. Double-order gate, with the sums the double-precision
    ones that the code computes: for a worker holding the orders
    [t0 <= t1], [update_state] at a time [c < t0 + 5] (neither order is
    dropped) keeps both orders and sets [next_available] to
    [max (t0 + 5) (t1 + 3)], the larger of the two. *)
Theorem double_order_gate (a : Attendant) (t0 t1 c : Float.t) :
  active_orders a = [t0; t1] ->
  (t0 <= t1)%F ->
  (c < t0 + 5)%F ->
  active_orders (update_state a c) = [t0; t1] /\
  next_available (update_state a c) = Py.max (t0 + 5) (t1 + 3) /\
  Float.units (next_available (update_state a c))
  = Z.max (Float.units (t0 + 5)) (Float.units (t1 + 3)).
Proof.
  intros Ha Hle Hc.
  pose proof (add_5_mono _ _ Hle) as Hmono.
  assert (Hf : List.filter (fun t => Py.float_gt (t + 5) c) [t0; t1] = [t0; t1]).
  { simpl. float_case (Py.float_gt (t0 + 5) c); [|float_lia].
    float_case (Py.float_gt (t1 + 5) c); [done | float_lia]. }
  unfold update_state. rewrite Ha, Hf. simpl.
  split; [done|]. split; [done | apply max_spec].
Qed.

Lemma double_order_gate_witness :
  let a := mkAttendant "Alice" [0%F; 1%F] active 0 in
  active_orders (update_state a 2) = [0%F; 1%F] /\
  next_available (update_state a 2) = Py.max (0 + 5) (1 + 3) /\
  Float.units (next_available (update_state a 2))
  = Z.max (Float.units (0 + 5)) (Float.units (1 + 3)).
Proof.
  apply (double_order_gate (mkAttendant "Alice" [0%F; 1%F] active 0) 0 1 2);
    [reflexivity | vm_compute; discriminate | vm_compute; reflexivity].
Defined.

(** The test of the double-order gate is on the rounded sum: with the orders 0.3
    and 1.0 and the time 5.3, [0.3 + 5] rounds to 5.3, so [c < t0 + 5] is
    false and the code drops the first order. *)
Example double_order_gate_rounding :
  let t0 := Float.of_bits 5404319552844595 (-54) in
  let c := Float.of_bits 5967269506265907 (-50) in
  (t0 + 5)%F = c /\
  active_orders (update_state (mkAttendant "Alice" [t0; 1%F] active 0) c) = [1%F].
Proof. split; vm_compute; reflexivity. Qed.

(** C7. Idempotent refresh: a second [update_state] at the same time
    leaves the attendant as the first one left it. *)
Theorem update_state_idempotent (a : Attendant) (c : Float.t) :
  update_state (update_state a c) c = update_state a c.
Proof.
  unfold update_state at 1. rewrite update_state_orders.
  fold (kept c). rewrite filter_kept_idem. reflexivity.
Qed.

(** ** Dictionaries *)

Section Dict.
Context {V : Type}.
Implicit Types (d : Py.dict V) (k : string) (v : V).

Lemma dict_get_None d k : Py.dict_get d k = None <-> k ∉ Py.keys d.
Proof.
  induction d as [|[k' v'] d IH]; simpl.
  - split; [intros _; apply not_elem_of_nil | done].
  - rewrite not_elem_of_cons. destruct (String.eqb_spec k' k) as [->|Hne].
    + split; [done | intros [? _]; done].
    + rewrite IH. split; [intros ?; split; [congruence | done] | intros [_ ?]; done].
Qed.

Lemma dict_get_Some_key d k v : Py.dict_get d k = Some v -> k ∈ Py.keys d.
Proof.
  intros H. destruct (decide (k ∈ Py.keys d)) as [|Hn]; [done|].
  apply dict_get_None in Hn. congruence.
Qed.

Lemma dict_get_Some_elem d k v : Py.dict_get d k = Some v -> (k, v) ∈ d.
Proof.
  induction d as [|[k' v'] d IH]; simpl; [done|].
  destruct (String.eqb_spec k' k) as [->|Hne].
  - intros [= ->]. apply list_elem_of_here.
  - intros H. apply list_elem_of_further, IH, H.
Qed.

Lemma dict_key_get d k : k ∈ Py.keys d -> exists v, Py.dict_get d k = Some v.
Proof.
  intros H. destruct (Py.dict_get d k) as [v|] eqn:E; [eauto|].
  apply dict_get_None in E. done.
Qed.

Lemma dict_get_set_eq d k v : Py.dict_get (Py.dict_set d k v) k = Some v.
Proof.
  induction d as [|[k' v'] d IH]; simpl.
  - by rewrite String.eqb_refl.
  - destruct (String.eqb k' k) eqn:E; simpl; by rewrite E.
Qed.

Lemma dict_get_set_ne d k k' v :
  k <> k' -> Py.dict_get (Py.dict_set d k v) k' = Py.dict_get d k'.
Proof.
  intros Hne. induction d as [|[k0 v0] d IH]; simpl.
  - destruct (String.eqb_spec k k'); done.
  - destruct (String.eqb_spec k0 k) as [->|Hk]; simpl.
    + destruct (String.eqb_spec k k'); done.
    + destruct (String.eqb_spec k0 k'); done.
Qed.

(** Assigning to a key that is present keeps the keys and their order. *)
Lemma dict_keys_set d k v : k ∈ Py.keys d -> Py.keys (Py.dict_set d k v) = Py.keys d.
Proof.
  induction d as [|[k0 v0] d IH]; simpl.
  - intros H. by apply elem_of_nil in H.
  - intros H. destruct (String.eqb_spec k0 k) as [->|Hk]; simpl; [done|].
    f_equal. apply IH. apply elem_of_cons in H as [->|H]; done.
Qed.

(** The entries of the dict after an assignment. *)
Lemma dict_set_elem d k v k' v' :
  (k', v') ∈ Py.dict_set d k v -> (k', v') = (k, v) \/ (k', v') ∈ d.
Proof.
  induction d as [|[k0 v0] d IH]; simpl.
  - intros H. apply list_elem_of_singleton in H. by left.
  - destruct (String.eqb_spec k0 k) as [->|Hk]; intros H;
      apply elem_of_cons in H as [H|H].
    + by left.
    + right. by apply list_elem_of_further.
    + right. rewrite H. apply list_elem_of_here.
    + destruct (IH H) as [?|?]; [by left | right; by apply list_elem_of_further].
Qed.

End Dict.

(** ** [Orchestrator.update_attendant_status] *)

(** C5. [update_attendant_status] raises [KeyError] (the unknown-worker
    error), leaving the orchestrator as it was, exactly for the names
    that are not keys of the roster; for a name of the roster it returns,
    and the attendant stored under that name becomes what
    [Worker_setStatus] makes of it at the orchestrator's current time. *)
Theorem update_attendant_status_unknown_or_delegates
    (self : Orchestrator) (name : string) (s : Status) :
  (name ∉ Py.keys (attendants self) ->
     update_attendant_status self name s = KeyError name self) /\
  (name ∈ Py.keys (attendants self) ->
     exists a, Py.dict_get (attendants self) name = Some a /\
       update_attendant_status self name s =
         Return (with_attendants self
                   (Py.dict_set (attendants self) name
                      (Worker_setStatus a s (current_time self))))).
Proof.
  unfold update_attendant_status. split.
  - intros Hn. apply dict_get_None in Hn. by rewrite Hn.
  - intros Hin. destruct (dict_key_get _ _ Hin) as [a Ha].
    exists a. split; [done|]. rewrite Ha. by destruct s.
Qed.

Lemma update_attendant_status_unknown_or_delegates_witness :
  let self := Orchestrator_init [Attendant_init "Alice"; Attendant_init "Bob"] in
  update_attendant_status self "Carol" inactive = KeyError "Carol" self /\
  exists a, Py.dict_get (attendants self) "Bob" = Some a /\
    update_attendant_status self "Bob" inactive =
      Return (with_attendants self
                (Py.dict_set (attendants self) "Bob"
                   (Worker_setStatus a inactive (current_time self)))).
Proof.
  split.
  - apply (update_attendant_status_unknown_or_delegates
             (Orchestrator_init [Attendant_init "Alice"; Attendant_init "Bob"])
             "Carol" inactive).
    vm_compute. intros H. repeat (apply elem_of_cons in H as [H|H]; [discriminate H|]).
    by apply elem_of_nil in H.
  - apply (update_attendant_status_unknown_or_delegates
             (Orchestrator_init [Attendant_init "Alice"; Attendant_init "Bob"])
             "Bob" inactive).
    vm_compute. apply list_elem_of_further, list_elem_of_here.
Defined.

(** C8. For a name of the roster and a status other than [active],
    [update_attendant_status] changes the status field of that attendant
    and nothing else: its orders and [next_available], every other
    attendant, the event queue, the current time and both counters are
    as before.  With [active], the attendant is in addition refreshed at
    the current time. *)
Theorem update_attendant_status_frame
    (self : Orchestrator) (name : string) (a : Attendant) (s : Status) :
  Py.dict_get (attendants self) name = Some a ->
  (s <> active ->
     exists self',
       update_attendant_status self name s = Return self' /\
       Py.dict_get (attendants self') name = Some (set_status a s) /\
       active_orders (set_status a s) = active_orders a /\
       next_available (set_status a s) = next_available a /\
       (forall other, other <> name ->
          Py.dict_get (attendants self') other = Py.dict_get (attendants self) other) /\
       Py.keys (attendants self') = Py.keys (attendants self) /\
       event_queue self' = event_queue self /\
       current_time self' = current_time self /\
       processed self' = processed self /\
       rejected self' = rejected self) /\
  (s = active ->
     update_attendant_status self name s =
       Return (with_attendants self
                 (Py.dict_set (attendants self) name
                    (update_state (set_status a active) (current_time self))))).
Proof.
  intros Ha. unfold update_attendant_status. rewrite Ha. split.
  - intros Hs. rewrite bool_decide_eq_false_2 by done.
    eexists. split; [reflexivity|]. simpl.
    split; [apply dict_get_set_eq|].
    do 2 (split; [done|]).
    split; [intros other Ho; apply dict_get_set_ne; done|].
    split; [apply dict_keys_set; by eapply dict_get_Some_key | done].
  - intros ->. by rewrite bool_decide_eq_true_2.
Qed.

Lemma update_attendant_status_frame_witness :
  let self := Orchestrator_init [Attendant_init "Alice"; Attendant_init "Bob"] in
  exists self',
    update_attendant_status self "Bob" overloaded = Return self' /\
    Py.dict_get (attendants self') "Bob" = Some (set_status (Attendant_init "Bob") overloaded) /\
    event_queue self' = event_queue self /\
    processed self' = processed self.
Proof.
  destruct (update_attendant_status_frame
              (Orchestrator_init [Attendant_init "Alice"; Attendant_init "Bob"])
              "Bob" (Attendant_init "Bob") overloaded) as [H _]; [reflexivity|].
  destruct H as (self' & H1 & H2 & _ & _ & _ & _ & H3 & _ & H4 & _); [discriminate|].
  exists self'. auto.
Defined.

(** ** Lists with a hole *)

Section Hole.
Context {A : Type} `{!Inhabited A}.
Implicit Types (l : list A).

Lemma insert_cons_exchange l j u v :
  j < length l -> u :: <[j := v]> l ≡ₚ v :: <[j := u]> l.
Proof.
  revert j. induction l as [|a l IH]; intros j Hj; simpl in Hj; [lia|].
  destruct j as [|j]; simpl.
  - apply perm_swap.
  - rewrite perm_swap, (IH j) by lia. apply perm_swap.
Qed.

Lemma insert_insert_exchange l i j u v :
  i <> j -> i < length l -> j < length l ->
  <[i := u]> (<[j := v]> l) ≡ₚ <[i := v]> (<[j := u]> l).
Proof.
  revert i j. induction l as [|a l IH]; intros i j Hne Hi Hj; simpl in *; [lia|].
  destruct i as [|i], j as [|j]; simpl; try lia.
  - apply insert_cons_exchange. lia.
  - symmetry. apply insert_cons_exchange. lia.
  - apply perm_skip, IH; lia.
Qed.

(** Moving the hole from [i] to [j]: the entry at [j] is copied to [i],
    and the item that was to fill the hole goes to [j] instead. *)
Lemma move_hole_perm l i j x :
  i <> j -> i < length l -> j < length l ->
  <[j := x]> (<[i := l !!! j]> l) ≡ₚ <[i := x]> l.
Proof.
  intros Hne Hi Hj.
  rewrite insert_insert_exchange by (rewrite ?length_insert; lia).
  rewrite list_insert_insert_ne by lia.
  rewrite (list_insert_id l j) by (by apply list_lookup_lookup_total_lt).
  done.
Qed.

Lemma insert_lookup_total_id l i : <[i := l !!! i]> l = l.
Proof.
  destruct (decide (i < length l)) as [Hi|Hi].
  - apply list_insert_id. by apply list_lookup_lookup_total_lt.
  - apply list_insert_ge. lia.
Qed.

End Hole.

(** ** [heapq]: positions *)

Lemma parentpos_spec (pos : nat) : heapq.parentpos pos = (pos - 1) / 2.
Proof. unfold heapq.parentpos. rewrite Nat.shiftr_div_pow2. reflexivity. Qed.

Lemma parentpos_lt (pos : nat) : 0 < pos -> heapq.parentpos pos < pos.
Proof. rewrite parentpos_spec. intros H. apply Nat.Div0.div_lt_upper_bound; lia. Qed.

Lemma parentpos_children (pos c : nat) :
  0 < c -> (heapq.parentpos c = pos <-> c = 2 * pos + 1 \/ c = 2 * pos + 2).
Proof.
  rewrite parentpos_spec. intros Hc.
  pose proof (Nat.div_mod_eq (c - 1) 2) as Hd.
  pose proof (Nat.mod_upper_bound (c - 1) 2) as Hm.
  split.
  - intros <-. lia.
  - intros [->| ->].
    + replace (2 * pos + 1 - 1) with (pos * 2) by lia. apply Nat.div_mul. lia.
    + replace (2 * pos + 2 - 1) with (1 + pos * 2) by lia.
      rewrite Nat.div_add by lia. reflexivity.
Qed.

(** ** [heapq]: the heap holds the same events *)

Lemma siftdown_loop_perm (fuel : nat) (heap : list Event) (x : Event)
    (startpos pos : nat) :
  pos < length heap ->
  heapq.siftdown_loop fuel heap x startpos pos ≡ₚ <[pos := x]> heap.
Proof.
  revert heap pos. induction fuel as [|fuel IH]; intros heap pos Hpos; simpl; [done|].
  case_bool_decide as Hsp; [|done].
  destruct (Event_lt x _); [|done].
  assert (heapq.parentpos pos < pos) by (apply parentpos_lt; lia).
  rewrite IH by (rewrite length_insert; lia).
  apply move_hole_perm; lia.
Qed.

Lemma _siftdown_perm (heap : list Event) (startpos pos : nat) :
  pos < length heap -> heapq._siftdown heap startpos pos ≡ₚ heap.
Proof.
  intros Hpos. unfold heapq._siftdown.
  rewrite siftdown_loop_perm by done. by rewrite insert_lookup_total_id.
Qed.

Lemma heappush_perm (heap : list Event) (item : Event) :
  heapq.heappush heap item ≡ₚ item :: heap.
Proof.
  unfold heapq.heappush.
  rewrite _siftdown_perm by (rewrite length_app; simpl; lia).
  symmetry. apply Permutation_cons_append.
Qed.

Lemma siftup_loop_unfold (fuel : nat) (heap : list Event) (endpos pos : nat) :
  heapq.siftup_loop (S fuel) heap endpos pos =
    if bool_decide (2 * pos + 1 < endpos) then
      heapq.siftup_loop fuel
        (<[pos := heap !!! smaller_child heap endpos pos]> heap) endpos
        (smaller_child heap endpos pos)
    else (heap, pos).
Proof. reflexivity. Qed.

Lemma smaller_child_range (heap : list Event) (endpos pos : nat) :
  2 * pos + 1 < endpos ->
  smaller_child heap endpos pos < endpos /\
  (smaller_child heap endpos pos = 2 * pos + 1 \/
   smaller_child heap endpos pos = 2 * pos + 2).
Proof.
  intros H. unfold smaller_child.
  case_bool_decide; simpl; [destruct (negb _)|]; lia.
Qed.

(** [endpos - pos] iterations are as good as any larger number. *)
Lemma siftup_loop_fuel (fuel : nat) (heap : list Event) (endpos pos : nat) :
  endpos - pos <= fuel ->
  heapq.siftup_loop fuel heap endpos pos =
  heapq.siftup_loop (endpos - pos) heap endpos pos.
Proof.
  remember (endpos - pos) as n eqn:Hn. revert fuel heap pos Hn.
  induction n as [n IH] using lt_wf_ind. intros fuel heap pos Hn Hf.
  destruct fuel as [|fuel]; [by replace n with 0 by lia|].
  rewrite siftup_loop_unfold.
  destruct n as [|n].
  { simpl. by rewrite bool_decide_eq_false_2 by lia. }
  rewrite siftup_loop_unfold. case_bool_decide as Hc; [|done].
  destruct (smaller_child_range heap endpos pos Hc) as [Hlt Hch].
  set (c := smaller_child heap endpos pos) in *.
  rewrite (IH (endpos - c) ltac:(lia) fuel) by lia.
  rewrite (IH (endpos - c) ltac:(lia) n) by lia. done.
Qed.

Lemma siftup_loop_perm (fuel : nat) (heap : list Event) (pos : nat) (x : Event) :
  pos < length heap ->
  let r := heapq.siftup_loop fuel heap (length heap) pos in
  r.2 < length heap /\ length r.1 = length heap /\
  <[r.2 := x]> r.1 ≡ₚ <[pos := x]> heap.
Proof.
  revert heap pos. induction fuel as [|fuel IH]; intros heap pos Hpos; [done|].
  rewrite siftup_loop_unfold. case_bool_decide as Hc; [|done].
  destruct (smaller_child_range heap (length heap) pos Hc) as [Hlt Hch].
  set (c := smaller_child heap (length heap) pos) in *.
  specialize (IH (<[pos := heap !!! c]> heap) c).
  rewrite length_insert in IH. destruct (IH Hlt) as (H1 & H2 & H3).
  simpl. split; [done|]. split; [done|].
  rewrite H3. apply move_hole_perm; lia.
Qed.

Lemma _siftup_perm (heap : list Event) (pos : nat) :
  pos < length heap -> heapq._siftup heap pos ≡ₚ heap.
Proof.
  intros Hpos. unfold heapq._siftup.
  pose proof (siftup_loop_perm (length heap) heap pos (heap !!! pos) Hpos) as H.
  destruct (heapq.siftup_loop _ _ _ _) as [h p]. simpl in H.
  destruct H as (H1 & H2 & H3).
  rewrite _siftdown_perm by (rewrite length_insert; lia).
  by rewrite H3, insert_lookup_total_id.
Qed.

Lemma heappop_None (heap : list Event) : heapq.heappop heap = None <-> heap = [].
Proof.
  unfold heapq.heappop. destruct (last heap) as [x|] eqn:E.
  - split; [by destruct (removelast heap)|]. intros ->. done.
  - by rewrite last_None in E.
Qed.

Lemma heappop_perm (heap : list Event) (event : Event) (queue : list Event) :
  heapq.heappop heap = Some (event, queue) -> heap ≡ₚ event :: queue.
Proof.
  unfold heapq.heappop. destruct (last heap) as [x|] eqn:E; [|done].
  apply last_Some in E as [l ->]. rewrite removelast_last.
  destruct l as [|r l]; intros [= <- <-]; [done|].
  rewrite _siftup_perm by (rewrite ?length_insert; simpl; lia).
  simpl. apply perm_skip. symmetry. apply Permutation_cons_append.
Qed.

(** ** [heapq]: the heap order *)

#[global] Instance le_time_refl : Reflexive le_time.
Proof. intros a. unfold le_time. float_lia. Qed.

#[global] Instance le_time_trans : Transitive le_time.
Proof. intros a b c. unfold le_time. float_lia. Qed.

Lemma Event_lt_true (a b : Event) : Event_lt a b = true <-> (time a < time b)%F.
Proof. apply float_lt_true. Qed.

Lemma Event_lt_false (a b : Event) : Event_lt a b = false <-> le_time b a.
Proof. apply float_lt_false. Qed.

Lemma siftdown_write_ok (heap : list Event) (x : Event) (pos : nat) :
  siftdown_inv heap x pos ->
  (0 < pos -> le_time (heap !!! heapq.parentpos pos) x) ->
  heap_ok (<[pos := x]> heap).
Proof.
  intros (Hpos & I1 & I2) Hp i Hi. rewrite length_insert in Hi.
  pose proof (parentpos_lt i ltac:(lia)) as Hlt.
  destruct (decide (i = pos)) as [->|Hne].
  - rewrite list_lookup_total_insert_eq by lia.
    rewrite list_lookup_total_insert_ne by lia. apply Hp. lia.
  - rewrite (list_lookup_total_insert_ne _ pos i) by lia.
    destruct (decide (heapq.parentpos i = pos)) as [Hpi|Hpi].
    + rewrite Hpi, list_lookup_total_insert_eq by lia. by apply I2.
    + rewrite list_lookup_total_insert_ne by lia. by apply I1.
Qed.

Lemma siftdown_step_inv (heap : list Event) (x : Event) (pos : nat) :
  siftdown_inv heap x pos ->
  0 < pos ->
  (time x < time (heap !!! heapq.parentpos pos))%F ->
  siftdown_inv (<[pos := heap !!! heapq.parentpos pos]> heap) x (heapq.parentpos pos).
Proof.
  intros (Hpos & I1 & I2) H0 Hx.
  pose proof (parentpos_lt pos H0) as Hpp.
  set (pp := heapq.parentpos pos) in *.
  split; [rewrite length_insert; lia|]. split.
  - intros i Hi Hne. rewrite length_insert in Hi.
    pose proof (parentpos_lt i ltac:(lia)) as Hlt.
    destruct (decide (i = pos)) as [->|Hip].
    + rewrite list_lookup_total_insert_eq by lia.
      fold pp. rewrite list_lookup_total_insert_ne by lia. done.
    + rewrite (list_lookup_total_insert_ne _ pos i) by lia.
      destruct (decide (heapq.parentpos i = pos)) as [Hpi|Hpi].
      * rewrite Hpi, list_lookup_total_insert_eq by lia. apply I2; [lia|done|lia].
      * rewrite list_lookup_total_insert_ne by lia. apply I1; [lia|done].
  - intros c Hc Hpc. rewrite length_insert in Hc.
    destruct (decide (c = pos)) as [->|Hcp].
    + rewrite list_lookup_total_insert_eq by lia. split.
      * unfold le_time. float_lia.
      * intros Hpp0. pose proof (parentpos_lt pp Hpp0) as Hlt.
        rewrite list_lookup_total_insert_ne by lia. apply I1; lia.
    + rewrite (list_lookup_total_insert_ne _ pos c) by lia.
      assert (Hle : le_time (heap !!! pp) (heap !!! c)).
      { rewrite <- Hpc. apply I1; [lia|done]. }
      split.
      * unfold le_time in *. float_lia.
      * intros Hpp0. pose proof (parentpos_lt pp Hpp0) as Hlt.
        rewrite list_lookup_total_insert_ne by lia.
        etrans; [|exact Hle]. apply I1; lia.
Qed.

Lemma siftdown_loop_ok (fuel : nat) (heap : list Event) (x : Event) (pos : nat) :
  pos <= fuel ->
  siftdown_inv heap x pos ->
  heap_ok (heapq.siftdown_loop fuel heap x 0 pos).
Proof.
  revert heap pos. induction fuel as [|fuel IH]; intros heap pos Hf Hinv; simpl.
  - apply siftdown_write_ok; [done | lia].
  - case_bool_decide as H0; [|apply siftdown_write_ok; [done | lia]].
    destruct (Event_lt x _) eqn:Hlt.
    + apply Event_lt_true in Hlt. pose proof (parentpos_lt pos H0).
      apply IH; [lia | by apply siftdown_step_inv].
    + apply Event_lt_false in Hlt. by apply siftdown_write_ok.
Qed.

(** [pos] iterations are as good as any larger number. *)
Lemma siftdown_loop_fuel (fuel : nat) (heap : list Event) (x : Event)
    (startpos pos : nat) :
  pos <= fuel ->
  heapq.siftdown_loop fuel heap x startpos pos =
  heapq.siftdown_loop pos heap x startpos pos.
Proof.
  revert fuel heap. induction pos as [pos IH] using lt_wf_ind. intros fuel heap Hf.
  destruct fuel as [|fuel], pos as [|pos]; simpl; try lia; try done.
  case_bool_decide as H0; [|done]. destruct (Event_lt x _); [|done].
  pose proof (parentpos_lt (S pos) ltac:(lia)) as Hlt.
  rewrite (IH _ Hlt fuel) by lia. rewrite (IH _ Hlt pos) by lia. done.
Qed.

Lemma heap_ok_nil : heap_ok [].
Proof. intros i Hi. simpl in Hi. lia. Qed.

Lemma heap_ok_prefix (heap : list Event) (x : Event) :
  heap_ok (heap ++ [x]) -> heap_ok heap.
Proof.
  intros H i Hi. pose proof (parentpos_lt i ltac:(lia)).
  specialize (H i). rewrite length_app in H. simpl in H.
  rewrite !lookup_total_app_l in H by lia. apply H. lia.
Qed.

Lemma heappush_ok (heap : list Event) (item : Event) :
  heap_ok heap -> heap_ok (heapq.heappush heap item).
Proof.
  intros Hok. unfold heapq.heappush, heapq._siftdown.
  rewrite length_app. simpl. replace (length heap + 1 - 1) with (length heap) by lia.
  rewrite lookup_total_app_r by lia. rewrite Nat.sub_diag. simpl.
  apply siftdown_loop_ok; [lia|].
  split; [rewrite length_app; simpl; lia|]. split.
  - intros i Hi Hne. rewrite length_app in Hi. simpl in Hi.
    pose proof (parentpos_lt i ltac:(lia)).
    rewrite !lookup_total_app_l by lia. apply Hok. lia.
  - intros c Hc Hpc. rewrite length_app in Hc. simpl in Hc.
    apply parentpos_children in Hpc; lia.
Qed.

Lemma smaller_child_le (heap : list Event) (pos d : nat) :
  0 < d < length heap -> heapq.parentpos d = pos ->
  le_time (heap !!! smaller_child heap (length heap) pos) (heap !!! d).
Proof.
  intros Hd Hp. apply parentpos_children in Hp; [|lia]. unfold smaller_child.
  case_bool_decide as Hr; cbn [andb negb].
  - destruct (Event_lt _ _) eqn:Hlt; cbn [andb negb].
    + apply Event_lt_true in Hlt. destruct Hp as [->| ->]; [done|].
      replace (2 * pos + 2) with (2 * pos + 1 + 1) by lia.
      unfold le_time. float_lia.
    + apply Event_lt_false in Hlt. destruct Hp as [->| ->]; [done|].
      replace (2 * pos + 2) with (2 * pos + 1 + 1) by lia. done.
  - destruct Hp as [->| ->]; [done | lia].
Qed.

Lemma siftup_step_inv (heap : list Event) (pos : nat) :
  siftup_inv heap pos ->
  2 * pos + 1 < length heap ->
  siftup_inv (<[pos := heap !!! smaller_child heap (length heap) pos]> heap)
    (smaller_child heap (length heap) pos).
Proof.
  intros (Hpos & E1 & E2) Hc.
  destruct (smaller_child_range heap (length heap) pos Hc) as [Hlt Hch].
  pose proof (smaller_child_le heap pos) as Hsm.
  set (c := smaller_child heap (length heap) pos) in *.
  assert (Hpc : heapq.parentpos c = pos) by (apply parentpos_children; lia).
  split; [rewrite length_insert; lia|]. split.
  - intros i Hi Hne. rewrite length_insert in Hi.
    pose proof (parentpos_lt i ltac:(lia)) as Hpi.
    destruct (decide (i = pos)) as [->|Hip].
    + rewrite list_lookup_total_insert_eq by lia.
      rewrite list_lookup_total_insert_ne by lia. apply E2; [lia | lia | done].
    + rewrite (list_lookup_total_insert_ne _ pos i) by lia.
      destruct (decide (heapq.parentpos i = pos)) as [Hpp|Hpp].
      * rewrite Hpp, list_lookup_total_insert_eq by lia. by apply Hsm.
      * rewrite list_lookup_total_insert_ne by lia. by apply E1.
  - intros _ d Hd Hpd. rewrite length_insert in Hd.
    pose proof (parentpos_lt d ltac:(lia)) as Hlt'.
    rewrite Hpc, list_lookup_total_insert_eq by lia.
    rewrite list_lookup_total_insert_ne by lia.
    rewrite <- Hpd. apply E1; lia.
Qed.

Lemma siftup_loop_inv (fuel : nat) (heap : list Event) (pos : nat) :
  length heap <= fuel + pos ->
  siftup_inv heap pos ->
  let r := heapq.siftup_loop fuel heap (length heap) pos in
  siftup_inv r.1 r.2 /\ length r.1 = length heap /\ length heap <= 2 * r.2 + 1.
Proof.
  revert heap pos. induction fuel as [|fuel IH]; intros heap pos Hf Hinv.
  - destruct Hinv as [Hpos _]. simpl in *. lia.
  - rewrite siftup_loop_unfold. case_bool_decide as Hc; [|simpl; split; [done|lia]].
    destruct (smaller_child_range heap (length heap) pos Hc) as [Hlt Hch].
    pose proof (siftup_step_inv heap pos Hinv Hc) as Hstep.
    set (c := smaller_child heap (length heap) pos) in *.
    specialize (IH (<[pos := heap !!! c]> heap) c).
    rewrite length_insert in IH. apply IH; [lia | done].
Qed.

Lemma siftup_leaf_inv (heap : list Event) (pos : nat) (x : Event) :
  siftup_inv heap pos -> length heap <= 2 * pos + 1 ->
  siftdown_inv (<[pos := x]> heap) x pos.
Proof.
  intros (Hpos & E1 & E2) Hleaf.
  split; [rewrite length_insert; lia|]. split.
  - intros i Hi Hne. rewrite length_insert in Hi.
    assert (heapq.parentpos i <> pos) as Hpi.
    { intros Hp. apply parentpos_children in Hp; lia. }
    rewrite !list_lookup_total_insert_ne by lia. by apply E1.
  - intros c Hc Hp. rewrite length_insert in Hc.
    apply parentpos_children in Hp; lia.
Qed.

Lemma _siftup_ok (heap : list Event) :
  siftup_inv heap 0 -> heap_ok (heapq._siftup heap 0).
Proof.
  intros Hinv. unfold heapq._siftup.
  pose proof (siftup_loop_inv (length heap) heap 0 ltac:(lia) Hinv) as H.
  destruct (heapq.siftup_loop _ _ _ _) as [h p]. simpl in H.
  destruct H as (Hi & Hlen & Hleaf).
  unfold heapq._siftdown.
  assert (p < length h) by (destruct Hi; lia).
  rewrite list_lookup_total_insert_eq by lia.
  apply siftdown_loop_ok; [lia|].
  apply siftup_leaf_inv; [done | lia].
Qed.

Lemma root_minimal (heap : list Event) (i : nat) :
  heap_ok heap -> i < length heap -> le_time (heap !!! 0) (heap !!! i).
Proof.
  intros Hok. induction i as [i IH] using lt_wf_ind. intros Hi.
  destruct (decide (i = 0)) as [->|Hne]; [done|].
  pose proof (parentpos_lt i ltac:(lia)) as Hlt.
  etrans; [apply (IH _ Hlt); lia | apply Hok; lia].
Qed.

Lemma root_minimal_elem (r x : Event) (heap : list Event) :
  heap_ok (r :: heap) -> x ∈ r :: heap -> le_time r x.
Proof.
  intros Hok Hx. apply list_elem_of_lookup_total in Hx as (i & Hi & <-).
  by apply (root_minimal (r :: heap) i).
Qed.

(** [heappop] returns an event that is no later than any other event of
    the heap, and leaves a heap. *)
Lemma heappop_ok (heap : list Event) (event : Event) (queue : list Event) :
  heap_ok heap ->
  heapq.heappop heap = Some (event, queue) ->
  heap_ok queue /\ forall x, x ∈ queue -> le_time event x.
Proof.
  intros Hok Hpop.
  assert (Hmin : forall x, x ∈ queue -> le_time event x).
  { intros x Hx. pose proof (heappop_perm _ _ _ Hpop) as Hperm.
    assert (x ∈ heap) as Hxh by (rewrite Hperm; by apply list_elem_of_further).
    revert Hpop. unfold heapq.heappop.
    destruct (last heap) as [y|] eqn:E; [|done].
    apply last_Some in E as [l ->]. rewrite removelast_last.
    destruct l as [|r l]; intros [= <- <-]; [by apply elem_of_nil in Hx|].
    by apply (root_minimal_elem _ _ (l ++ [y])). }
  split; [|done].
  revert Hpop. unfold heapq.heappop.
  destruct (last heap) as [y|] eqn:E; [|done].
  apply last_Some in E as [l ->]. rewrite removelast_last.
  destruct l as [|r l]; intros [= <- <-]; [apply heap_ok_nil|].
  apply heap_ok_prefix in Hok.
  apply _siftup_ok. split; [simpl; lia|]. split; [|lia].
  intros i Hi Hp. pose proof (Hok i) as H.
  destruct i as [|i]; [lia|].
  destruct (heapq.parentpos (S i)) as [|j]; [done|].
  apply H. simpl in *. lia.
Qed.

(** ** [min] on the candidates *)

Lemma string_ltb_lt (s1 s2 : string) :
  String.ltb s1 s2 = true <-> OrderedTypeEx.String_as_OT.lt s1 s2.
Proof.
  rewrite <- OrderedTypeEx.String_as_OT.cmp_lt.
  unfold String.ltb, OrderedTypeEx.String_as_OT.cmp.
  destruct (String.compare s1 s2); split; congruence.
Qed.

Lemma Candidate_lt_spec (x y : Candidate) :
  Candidate_lt x y = true <-> Candidate_before x y.
Proof.
  destruct x as [[lx rx] nx], y as [[ly ry] ny].
  unfold Candidate_lt, Candidate_before, priority_eq, priority_lt, Py.float_eq,
    Py.float_lt; simpl.
  destruct (Nat.eqb_spec lx ly) as [->|Hl]; simpl.
  - destruct (Float.eqb rx ry) eqn:Hr; simpl.
    + apply Z.eqb_eq, FloatFacts.eq_units in Hr. subst ry.
      destruct (String.eqb_spec nx ny) as [->|Hn]; simpl.
      * split; [done|]. intros [?|[_ [?|[_ Hlt]]]]; [lia | float_lia |].
        by apply OrderedTypeEx.String_as_OT.lt_not_eq in Hlt.
      * rewrite string_ltb_lt. split; [by auto|].
        intros [?|[_ [?|[_ Hlt]]]]; [lia | float_lia | done].
    + apply Z.eqb_neq in Hr. unfold Float.ltb. rewrite Z.ltb_lt.
      split.
      * intros H. right. split; [done|]. by left.
      * intros [?|[_ [?|[? _]]]]; [lia | done | by subst ry].
  - rewrite Nat.ltb_lt. split; [by left|]. intros [?|[? _]]; [done | lia].
Qed.

Lemma Candidate_before_trans (x y z : Candidate) :
  Candidate_before x y -> Candidate_before y z -> Candidate_before x z.
Proof.
  unfold Candidate_before.
  intros [?|[? [?|[? Hxy]]]] [?|[? [?|[? Hyz]]]];
    try (left; lia); right; (split; [lia|]);
    try (left; float_lia); try (left; congruence).
  right. split; [congruence|]. by eapply OrderedTypeEx.String_as_OT.lt_trans.
Qed.

(** An entry that is not before [m] has a pair [(len, key)] that is not
    below the pair of [m]. *)
Lemma not_Candidate_lt_priority (x m : Candidate) :
  Candidate_lt x m = false ->
  m.1.1 < x.1.1 \/ (m.1.1 = x.1.1 /\ (m.1.2 <= x.1.2)%F).
Proof.
  rewrite <- not_true_iff_false, Candidate_lt_spec. unfold Candidate_before.
  intros Hn. destruct (lt_eq_lt_dec m.1.1 x.1.1) as [[?|?]|?]; [by left| |].
  - right. split; [done|].
    destruct (Z.le_gt_cases (Float.units m.1.2) (Float.units x.1.2)) as [?|Hlt]; [done|].
    exfalso. apply Hn. right. split; [done|]. left. unfold Float.lt. lia.
  - exfalso. apply Hn. by left.
Qed.

Lemma Candidate_lt_irrefl (x : Candidate) : Candidate_lt x x = false.
Proof.
  apply not_true_iff_false. rewrite Candidate_lt_spec.
  intros [?|[_ [?|[_ H]]]]; [lia | float_lia |].
  by apply OrderedTypeEx.String_as_OT.lt_not_eq in H.
Qed.

Lemma Candidate_lt_trans (x y z : Candidate) :
  Candidate_lt x y = true -> Candidate_lt y z = true -> Candidate_lt x z = true.
Proof. rewrite !Candidate_lt_spec. apply Candidate_before_trans. Qed.

Lemma foldl_min_spec (rest seen : list Candidate) (m : Candidate) :
  m ∈ seen ->
  (forall x, x ∈ seen -> Candidate_lt x m = false) ->
  let r := foldl (fun m x => if Candidate_lt x m then x else m) m rest in
  r ∈ seen ++ rest /\ forall x, x ∈ seen ++ rest -> Candidate_lt x r = false.
Proof.
  revert seen m. induction rest as [|y rest IH]; intros seen m Hin Hmin; simpl.
  - by rewrite app_nil_r.
  - replace (seen ++ y :: rest) with ((seen ++ [y]) ++ rest)
      by (by rewrite <- app_assoc).
    apply IH.
    + destruct (Candidate_lt y m); apply elem_of_app; [right | left];
        [apply list_elem_of_here | done].
    + intros x Hx. apply elem_of_app in Hx as [Hx|Hx].
      * destruct (Candidate_lt y m) eqn:Hy; [|by apply Hmin].
        apply not_true_iff_false. intros Hxy.
        pose proof (Candidate_lt_trans _ _ _ Hxy Hy) as Hxm.
        rewrite (Hmin x Hx) in Hxm. done.
      * apply list_elem_of_singleton in Hx as ->.
        destruct (Candidate_lt y m) eqn:Hy; [apply Candidate_lt_irrefl | done].
Qed.

Lemma min_from_spec (first : Candidate) (rest : list Candidate) :
  min_from first rest ∈ first :: rest /\
  forall x, x ∈ first :: rest -> Candidate_lt x (min_from first rest) = false.
Proof.
  apply (foldl_min_spec rest (cons first nil) first); [apply list_elem_of_here|].
  intros x Hx. apply list_elem_of_singleton in Hx as ->. apply Candidate_lt_irrefl.
Qed.

(** ** Facts on the roster *)

Lemma dict_elem_get {V} (d : Py.dict V) (k : string) (v : V) :
  NoDup (Py.keys d) -> (k, v) ∈ d -> Py.dict_get d k = Some v.
Proof.
  induction d as [|[k' v'] d IH]; simpl; intros Hnd Hin.
  - by apply elem_of_nil in Hin.
  - apply NoDup_cons in Hnd as [Hk Hnd].
    apply elem_of_cons in Hin as [[= -> ->]|Hin].
    + by rewrite String.eqb_refl.
    + destruct (String.eqb_spec k' k) as [->|Hne]; [|by apply IH].
      exfalso. apply Hk. apply list_elem_of_fmap. by exists (k, v).
Qed.

Lemma dict_keys_set_NoDup {V} (d : Py.dict V) (k : string) (v : V) :
  NoDup (Py.keys d) -> NoDup (Py.keys (Py.dict_set d k v)).
Proof.
  destruct (decide (k ∈ Py.keys d)) as [Hin|Hin]; [by rewrite dict_keys_set|].
  induction d as [|[k' v'] d IH]; simpl; intros Hnd.
  - apply NoDup_singleton.
  - simpl in Hin. apply not_elem_of_cons in Hin as [Hne Hin].
    destruct (String.eqb_spec k' k) as [->|_]; [done|]. simpl.
    apply NoDup_cons in Hnd as [Hk Hnd]. apply NoDup_cons. split; [|by apply IH].
    intros Hk'. apply list_elem_of_fmap in Hk' as [[k0 v0] [-> H0]].
    apply dict_set_elem in H0 as [[= -> ->]|H0]; [done|].
    apply Hk. apply list_elem_of_fmap. by exists (k0, v0).
Qed.

Lemma capacity_ok_set (d : Py.dict Attendant) (k : string) (a : Attendant) :
  capacity_ok d -> length (active_orders a) <= 2 -> capacity_ok (Py.dict_set d k a).
Proof.
  intros Hd Ha n a' Hin. apply dict_set_elem in Hin as [[= -> ->]|Hin]; [done|].
  by eapply Hd.
Qed.

Lemma update_state_length (a : Attendant) (c : Float.t) :
  length (active_orders (update_state a c)) <= length (active_orders a).
Proof. apply filter_kept_length. Qed.

Lemma insort_length (x : Float.t) (l : list Float.t) : length (Py.insort x l) = S (length l).
Proof.
  induction l as [|y l IH]; simpl; [done|].
  destruct (Py.float_lt y x); simpl; by rewrite ?IH.
Qed.

Lemma sort_length (l : list Float.t) : length (Py.sort l) = length l.
Proof.
  induction l as [|x l IH]; simpl; [done|]. by rewrite insort_length, IH.
Qed.

Lemma start_order_length (a : Attendant) (t : Float.t) :
  length (active_orders (start_order a t)) = S (length (active_orders a)).
Proof. simpl. rewrite sort_length, length_app. simpl. lia. Qed.

Lemma can_accept_length (a : Attendant) (c : Float.t) :
  can_accept a c = true -> length (active_orders a) < 2.
Proof.
  unfold can_accept. destruct (negb _); [done|].
  intros H. apply andb_true_iff in H as [_ H]. by apply bool_decide_eq_true in H.
Qed.

Lemma refreshed_keys (d : Py.dict Attendant) (c : Float.t) :
  Py.keys (refreshed d c) = Py.keys d.
Proof.
  unfold Py.keys, refreshed. rewrite map_map. by apply map_ext.
Qed.

Lemma refreshed_elem (d : Py.dict Attendant) (c : Float.t) (n : string) (a : Attendant) :
  (n, a) ∈ refreshed d c <-> exists a0, (n, a0) ∈ d /\ a = update_state a0 c.
Proof.
  unfold refreshed. change (map ?f d) with (f <$> d). rewrite list_elem_of_fmap. split.
  - intros [[n0 a0] [[= -> ->] Hin]]. by exists a0.
  - intros [a0 [Hin ->]]. by exists (n, a0).
Qed.

Lemma refreshed_get (d : Py.dict Attendant) (c : Float.t) (n : string) :
  Py.dict_get (refreshed d c) n = (fun a => update_state a c) <$> Py.dict_get d n.
Proof.
  induction d as [|[k a] d IH]; simpl; [done|]. by destruct (String.eqb k n).
Qed.

Lemma refreshed_capacity (d : Py.dict Attendant) (c : Float.t) :
  capacity_ok d -> capacity_ok (refreshed d c).
Proof.
  intros Hd n a Hin. apply refreshed_elem in Hin as [a0 [Hin ->]].
  pose proof (update_state_length a0 c). pose proof (Hd n a0 Hin). lia.
Qed.

Lemma accepting_elem (d : Py.dict Attendant) (c : Float.t) (n : string) (a : Attendant) :
  (n, a) ∈ accepting d c <-> (n, a) ∈ d /\ can_accept a c = true.
Proof.
  unfold accepting. rewrite !list_elem_of_In, filter_In. done.
Qed.

Section Arrival.

Variable random_random : nat -> Float.t.

Lemma keyed_lookup (calls : nat) (l : Py.dict Attendant) (i : nat) :
  keyed random_random calls l !! i =
    (fun na => (priority_of na.2 (random_random (calls + i)), na.1)) <$> l !! i.
Proof.
  revert calls i. induction l as [|na l IH]; intros calls i; simpl; [done|].
  destruct i as [|i]; simpl.
  - by rewrite Nat.add_0_r.
  - rewrite IH. by replace (S calls + i) with (calls + S i) by lia.
Qed.

Lemma keyed_length (calls : nat) (l : Py.dict Attendant) :
  length (keyed random_random calls l) = length l.
Proof. revert calls. induction l as [|na l IH]; intros calls; simpl; by rewrite ?IH. Qed.

(** The loop of [handle_order_arrival] refreshes every attendant and
    collects the candidate set with one random number per candidate. *)
Lemma collect_candidates_eq (items : Py.dict Attendant) (c : Float.t) (calls : nat) :
  collect_candidates random_random items c calls =
    (refreshed items c,
     keyed random_random calls (accepting (refreshed items c) c),
     calls + length (accepting (refreshed items c) c)).
Proof.
  revert calls. induction items as [|[n a] items IH]; intros calls; simpl.
  - by rewrite Nat.add_0_r.
  - destruct (can_accept (update_state a c) c) eqn:Hacc; rewrite IH; simpl.
    + do 2 f_equal. lia.
    + done.
Qed.

Lemma handle_order_arrival_rejects (self : Orchestrator) (env : Env) :
  let c := current_time self in
  let d := refreshed (attendants self) c in
  accepting d c = [] ->
  handle_order_arrival random_random self env =
    Return (mkOrchestrator d (event_queue self) c (processed self) (rejected self + 1),
            mkEnv (random_calls env) (stdout env ++ [Order_rejected c])).
Proof.
  intros c d Hacc. unfold handle_order_arrival.
  rewrite collect_candidates_eq. fold c d. rewrite Hacc. simpl.
  by rewrite Nat.add_0_r.
Qed.

Lemma handle_order_arrival_accepts (self : Orchestrator) (env : Env) :
  let c := current_time self in
  let d := refreshed (attendants self) c in
  let acc := accepting d c in
  let calls := random_calls env in
  acc <> [] ->
  exists i best a a',
    acc !! i = Some (best, a) /\
    (forall j n' a'', acc !! j = Some (n', a'') ->
       priority_le (priority_of a (random_random (calls + i)))
                   (priority_of a'' (random_random (calls + j)))) /\
    Py.dict_get d best = Some a' /\
    handle_order_arrival random_random self env =
      Return (mkOrchestrator
                (Py.dict_set d best (start_order a' c))
                (heapq.heappush (event_queue self)
                   (mkEvent (c + 5) order_completion [("attendant"%string, best)]))
                c (processed self + 1) (rejected self),
              mkEnv (calls + length acc) (stdout env ++ [Order_accepted c best])).
Proof.
  intros c d acc calls Hacc. unfold handle_order_arrival.
  rewrite collect_candidates_eq. fold c d acc calls.
  destruct (keyed random_random calls acc) as [|first rest] eqn:Ek.
  { apply (f_equal length) in Ek. rewrite keyed_length in Ek.
    by destruct acc. }
  destruct (min_from_spec first rest) as [Hin Hmin].
  rewrite <- Ek in Hin, Hmin.
  apply list_elem_of_lookup in Hin as [i Hi].
  rewrite keyed_lookup in Hi.
  destruct (acc !! i) as [[best a]|] eqn:Hai; [|done].
  simpl in Hi. injection Hi as Hi.
  assert (Hbest : (min_from first rest).2 = best) by (by rewrite <- Hi).
  assert (Hd : (best, a) ∈ d).
  { apply list_elem_of_lookup_2 in Hai. by apply accepting_elem in Hai as [? _]. }
  destruct (dict_key_get d best) as [a' Ha'].
  { apply list_elem_of_fmap. by exists (best, a). }
  exists i, best, a, a'. split; [done|]. split; [|split; [done|]].
  - intros j n' a'' Hj.
    assert (Hx : (priority_of a'' (random_random (calls + j)), n')
                 ∈ keyed random_random calls acc).
    { eapply list_elem_of_lookup_2. rewrite keyed_lookup, Hj. done. }
    apply Hmin in Hx. rewrite <- Hi in Hx.
    apply not_Candidate_lt_priority in Hx. exact Hx.
  - simpl. rewrite Hbest, Ha'. done.
Qed.

Lemma dispatch_arrival (self : Orchestrator) (env : Env) (event : Event)
    (queue : list Event) :
  type event = order_arrival ->
  let c := time event in
  let d := refreshed (attendants self) c in
  (accepting d c = [] /\
   dispatch random_random self env event queue =
     Return (mkOrchestrator d queue c (processed self) (rejected self + 1),
             mkEnv (random_calls env) (stdout env ++ [Order_rejected c]))) \/
  (accepting d c <> [] /\
   exists best a a', (best, a) ∈ accepting d c /\ Py.dict_get d best = Some a' /\
     dispatch random_random self env event queue =
       Return (mkOrchestrator (Py.dict_set d best (start_order a' c))
                 (heapq.heappush queue (completion_of c best))
                 c (processed self + 1) (rejected self),
               mkEnv (random_calls env + length (accepting d c))
                 (stdout env ++ [Order_accepted c best]))).
Proof.
  intros Hty c d. unfold dispatch. rewrite Hty.
  destruct (accepting d c) as [|x acc] eqn:Hacc.
  - left. split; [done|].
    by rewrite handle_order_arrival_rejects.
  - right. split; [done|].
    destruct (handle_order_arrival_accepts (at_event self event queue) env)
      as (i & best & a & a' & Hi & _ & Ha' & Heq).
    { simpl. fold c d. by rewrite Hacc. }
    simpl in Hi, Ha', Heq. fold c d in Hi, Ha', Heq.
    exists best, a, a'. split; [|split; [done|]].
    + rewrite <- Hacc. by eapply list_elem_of_lookup_2.
    + unfold at_event in Heq. rewrite Heq. by rewrite Hacc.
Qed.

Lemma dispatch_completion (self : Orchestrator) (env : Env) (event : Event)
    (queue : list Event) :
  type event = order_completion ->
  let c := time event in
  (Py.dict_get (data event) "attendant" = None /\
   dispatch random_random self env event queue =
     KeyError "attendant" (at_event self event queue, env)) \/
  (exists n, Py.dict_get (data event) "attendant" = Some n /\
     let env' := mkEnv (random_calls env) (stdout env ++ [Order_completed c n]) in
     (Py.dict_get (attendants self) n = None /\
      dispatch random_random self env event queue =
        KeyError n (at_event self event queue, env')) \/
     (exists a, Py.dict_get (attendants self) n = Some a /\
        dispatch random_random self env event queue =
          Return (mkOrchestrator (Py.dict_set (attendants self) n (update_state a c))
                    queue c (processed self) (rejected self), env'))).
Proof.
  intros Hty c. unfold dispatch. rewrite Hty.
  destruct (Py.dict_get (data event) "attendant") as [n|]; [right | by left].
  exists n. split; [done|]. unfold handle_order_completion. simpl.
  destruct (Py.dict_get (attendants self) n) as [a|]; [right | by left].
  by exists a.
Qed.

End Arrival.

(** ** The public operations keep orchestrators well formed *)

Lemma completions_ok_mono (keys keys' : list string) (queue queue' : list Event) :
  keys' = keys -> (forall e, e ∈ queue' -> e ∈ queue) ->
  completions_ok keys queue -> completions_ok keys' queue'.
Proof. intros -> Hsub Hok e He Hty. apply Hok; auto. Qed.

Lemma completions_ok_push (keys : list string) (queue : list Event) (e : Event) :
  (type e = order_completion ->
     exists n, Py.dict_get (data e) "attendant" = Some n /\ n ∈ keys) ->
  completions_ok keys queue -> completions_ok keys (heapq.heappush queue e).
Proof.
  intros He Hok x Hx Hty. rewrite heappush_perm in Hx.
  apply elem_of_cons in Hx as [->|Hx]; [by apply He | by apply Hok].
Qed.

Lemma pending_work_push (queue : list Event) (e : Event) :
  pending_work (heapq.heappush queue e) = weight e + pending_work queue.
Proof. unfold pending_work. by rewrite heappush_perm. Qed.

Lemma pending_work_pop (heap : list Event) (event : Event) (queue : list Event) :
  heapq.heappop heap = Some (event, queue) ->
  pending_work heap = weight event + pending_work queue.
Proof. intros H. unfold pending_work. by rewrite (heappop_perm _ _ _ H). Qed.

Lemma init_roster_keys (l : list Attendant) (d : Py.dict Attendant) :
  NoDup (Py.keys d) ->
  NoDup (Py.keys (foldl (fun d a => Py.dict_set d (name a) a) d l)).
Proof.
  revert d. induction l as [|a l IH]; intros d Hd; simpl; [done|].
  by apply IH, dict_keys_set_NoDup.
Qed.

Lemma init_roster_capacity (l : list Attendant) (d : Py.dict Attendant) :
  capacity_ok d -> Forall (fun a => length (active_orders a) <= 2) l ->
  capacity_ok (foldl (fun d a => Py.dict_set d (name a) a) d l).
Proof.
  revert d. induction l as [|a l IH]; intros d Hd Hl; simpl; [done|].
  apply Forall_cons in Hl as [Ha Hl]. apply IH; [|done].
  by apply capacity_ok_set.
Qed.

Lemma wf_init (names : list string) :
  wf (Orchestrator_init (map Attendant_init names)).
Proof.
  split; simpl.
  - apply init_roster_keys, NoDup_nil_2.
  - apply init_roster_capacity.
    + intros n a Hin. by apply elem_of_nil in Hin.
    + apply Forall_forall. intros a Ha.
      change (map ?f names) with (f <$> names) in Ha.
      apply list_elem_of_fmap in Ha as [n [-> _]]. simpl. lia.
  - apply heap_ok_nil.
  - intros e He. by apply elem_of_nil in He.
Qed.

Lemma wf_add_order (self : Orchestrator) (t : Float.t) : wf self -> wf (add_order self t).
Proof.
  intros [H1 H2 H3 H4]. split; simpl; [done | done | by apply heappush_ok |].
  apply completions_ok_push; [done | done].
Qed.

Lemma wf_update_attendant_status (self : Orchestrator) (name : string) (s : Status) :
  wf self -> wf (state_of (update_attendant_status self name s)).
Proof.
  intros [H1 H2 H3 H4]. unfold update_attendant_status.
  destruct (Py.dict_get (attendants self) name) as [a|] eqn:Ha; [|done].
  pose proof (dict_get_Some_key _ _ _ Ha) as Hk.
  pose proof (H2 _ _ (dict_get_Some_elem _ _ _ Ha)) as Hcap.
  split; simpl.
  - by rewrite dict_keys_set.
  - apply capacity_ok_set; [done|]. case_bool_decide; [|done].
    etrans; [apply update_state_length | done].
  - done.
  - by rewrite dict_keys_set.
Qed.

Section Loop.

Variable random_random : nat -> Float.t.

(** One iteration from a well-formed orchestrator returns, leaves a
    well-formed orchestrator with the same roster keys, and less work. *)
Lemma dispatch_wf (self : Orchestrator) (env : Env) (event : Event)
    (queue : list Event) :
  wf self ->
  heapq.heappop (event_queue self) = Some (event, queue) ->
  exists self' env',
    dispatch random_random self env event queue = Return (self', env') /\
    wf self' /\
    pending_work (event_queue self') < pending_work (event_queue self).
Proof.
  intros [H1 H2 H3 H4] Hpop.
  pose proof (heappop_perm _ _ _ Hpop) as Hperm.
  destruct (heappop_ok _ _ _ H3 Hpop) as [Hq _].
  pose proof (pending_work_pop _ _ _ Hpop) as Hwork.
  assert (Hsub : forall e, e ∈ queue -> e ∈ event_queue self).
  { intros e He. rewrite Hperm. by apply list_elem_of_further. }
  destruct (type event) eqn:Hty.
  - assert (weight event = 2) as Hw by (unfold weight; by rewrite Hty).
    set (c := time event). set (d := refreshed (attendants self) c).
    assert (Hkeys : Py.keys d = Py.keys (attendants self)) by apply refreshed_keys.
    assert (Hcap : capacity_ok d) by by apply refreshed_capacity.
    destruct (dispatch_arrival random_random self env event queue Hty)
      as [[Hacc Heq]|[Hacc (best & a & a' & Hin & Ha' & Heq)]]; fold c d in Heq |- *.
    + eexists _, _. split; [exact Heq|]. split; [|simpl; lia].
      split; simpl; [by rewrite Hkeys | done | done |].
      exact (completions_ok_mono _ _ _ _ Hkeys Hsub H4).
    + fold c d in Hin, Ha'. apply accepting_elem in Hin as [Hin Hcan].
      assert (a' = a) as ->.
      { rewrite (dict_elem_get d best a) in Ha'; [congruence | by rewrite Hkeys | done]. }
      pose proof (dict_get_Some_key _ _ _ Ha') as Hk.
      eexists _, _. split; [exact Heq|]. split.
      * split; simpl.
        -- by rewrite dict_keys_set, Hkeys.
        -- apply capacity_ok_set; [done|]. rewrite start_order_length.
           apply can_accept_length in Hcan. lia.
        -- by apply heappush_ok.
        -- rewrite dict_keys_set, Hkeys by done. apply completions_ok_push.
           ++ intros _. exists best. split; [done | by rewrite <- Hkeys].
           ++ exact (completions_ok_mono _ _ _ _ eq_refl Hsub H4).
      * simpl. rewrite pending_work_push. unfold completion_of, weight at 1. simpl. lia.
  - assert (weight event = 1) as Hw by (unfold weight; by rewrite Hty).
    destruct (H4 event) as [n [Hn Hk]]; [rewrite Hperm; apply list_elem_of_here | done |].
    destruct (dict_key_get _ _ Hk) as [a Ha].
    destruct (dispatch_completion random_random self env event queue Hty)
      as [[Hnone _]|[n' [Hn' [[Hnone _]|[a' [Ha' Heq]]]]]]; try congruence.
    assert (n' = n) as -> by congruence.
    eexists _, _. split; [exact Heq|]. split; [|simpl; lia].
    split; simpl.
    + by rewrite dict_keys_set.
    + apply capacity_ok_set; [done|].
      etrans; [apply update_state_length|].
      eapply H2, dict_get_Some_elem, Ha'.
    + done.
    + rewrite dict_keys_set by done.
      exact (completions_ok_mono _ _ _ _ eq_refl Hsub H4).
Qed.

(** The loop leaves the queue empty whenever it returns. *)
Lemma process_events_returns_empty (fuel : nat) (self : Orchestrator) (env : Env)
    (self' : Orchestrator) (env' : Env) :
  process_events random_random fuel self env = Some (Return (self', env')) ->
  event_queue self' = [].
Proof.
  revert self env. induction fuel as [|fuel IH]; intros self env; simpl.
  - destruct (heapq.heappop (event_queue self)) as [[event queue]|] eqn:Hpop; [done|].
    intros [= <- <-]. by apply heappop_None.
  - destruct (heapq.heappop (event_queue self)) as [[event queue]|] eqn:Hpop.
    + destruct (dispatch _ _ _ _ _) as [[s e]|]; [apply IH | done].
    + intros [= <- <-]. by apply heappop_None.
Qed.

(** More fuel does not change what the loop returns. *)
Lemma process_events_fuel (fuel fuel' : nat) (self : Orchestrator) (env : Env)
    (r : result (Orchestrator * Env)) :
  process_events random_random fuel self env = Some r ->
  fuel <= fuel' ->
  process_events random_random fuel' self env = Some r.
Proof.
  revert fuel' self env. induction fuel as [|fuel IH]; intros fuel' self env; simpl.
  - destruct (heapq.heappop (event_queue self)) as [[event queue]|] eqn:Hpop; [done|].
    intros [= <-] _. destruct fuel'; simpl; by rewrite Hpop.
  - destruct (heapq.heappop (event_queue self)) as [[event queue]|] eqn:Hpop.
    + intros Hrun Hle. destruct fuel' as [|fuel']; [lia|]. simpl. rewrite Hpop.
      destruct (dispatch _ _ _ _ _) as [[s e]|]; [|done]. apply IH; [done | lia].
    + intros [= <-] _. destruct fuel'; simpl; by rewrite Hpop.
Qed.

Lemma process_events_wf (fuel : nat) (self : Orchestrator) (env : Env)
    (r : result (Orchestrator * Env)) :
  wf self ->
  process_events random_random fuel self env = Some r ->
  wf (state_of r).1 /\ returns r = true.
Proof.
  revert self env. induction fuel as [|fuel IH]; intros self env Hwf; simpl.
  - destruct (heapq.heappop (event_queue self)) as [[event queue]|] eqn:Hpop; [done|].
    by intros [= <-].
  - destruct (heapq.heappop (event_queue self)) as [[event queue]|] eqn:Hpop.
    + destruct (dispatch_wf self env event queue Hwf Hpop) as (s & e & -> & Hwf' & _).
      by apply IH.
    + by intros [= <-].
Qed.

(** With fuel for the pending work, the loop returns. *)
Lemma process_events_terminates (fuel : nat) (self : Orchestrator) (env : Env) :
  wf self ->
  pending_work (event_queue self) <= fuel ->
  exists self' env',
    process_events random_random fuel self env = Some (Return (self', env')).
Proof.
  revert self env. induction fuel as [|fuel IH]; intros self env Hwf Hfuel; simpl.
  - destruct (heapq.heappop (event_queue self)) as [[event queue]|] eqn:Hpop; [|by eauto].
    pose proof (pending_work_pop _ _ _ Hpop) as Hw.
    assert (0 < weight event) by (unfold weight; destruct (type event); lia). lia.
  - destruct (heapq.heappop (event_queue self)) as [[event queue]|] eqn:Hpop; [|by eauto].
    destruct (dispatch_wf self env event queue Hwf Hpop) as (s & e & -> & Hwf' & Hlt).
    apply IH; [done | lia].
Qed.

Lemma reachable_wf (self : Orchestrator) : reachable random_random self -> wf self.
Proof.
  induction 1 as [names | self t _ IH | self name s _ IH
                 | self env event queue _ IH Hpop | self env fuel r _ IH Hrun].
  - apply wf_init.
  - by apply wf_add_order.
  - by apply wf_update_attendant_status.
  - by destruct (dispatch_wf self env event queue IH Hpop) as (s & e & -> & Hwf' & _).
  - by destruct (process_events_wf fuel self env r IH Hrun).
Qed.

End Loop.

Section Claims.

Variable random_random : nat -> Float.t.

(** C1. Capacity invariant: in every orchestrator that the public
    operations can produce (creation from a list of names, [add_order],
    [update_attendant_status], [process_events] and each iteration of its
    loop), every attendant of the roster holds at most two orders. *)
Theorem capacity_invariant (self : Orchestrator) (name : string) (a : Attendant) :
  reachable random_random self ->
  (name, a) ∈ attendants self ->
  length (active_orders a) <= 2.
Proof.
  intros Hreach Hin. apply reachable_wf in Hreach. by eapply wf_capacity.
Qed.

(** C2. Assignment policy: when an arrival is handled and the candidate
    set (the attendants that can accept once all are refreshed at the
    event's time) is not empty, the order goes to a member of the
    candidate set whose pair (number of active orders, random key drawn
    for it on this arrival) is minimal among the candidates; in
    particular no candidate holds fewer orders than the chosen one.  The
    [i]-th candidate in roster order gets the [i]-th random number drawn
    for this arrival. *)
Theorem arrival_goes_to_least_loaded (self : Orchestrator) (env : Env)
    (event : Event) (queue : list Event) :
  type event = order_arrival ->
  NoDup (Py.keys (attendants self)) ->
  let c := time event in
  let d := refreshed (attendants self) c in
  let candidates := accepting d c in
  let calls := random_calls env in
  candidates <> [] ->
  exists i best a,
    candidates !! i = Some (best, a) /\
    Py.dict_get d best = Some a /\
    can_accept a c = true /\
    (forall j n' a', candidates !! j = Some (n', a') ->
       priority_le (priority_of a (random_random (calls + i)))
                   (priority_of a' (random_random (calls + j)))) /\
    (forall n' a', Py.dict_get d n' = Some a' -> can_accept a' c = true ->
       length (active_orders a) <= length (active_orders a')) /\
    dispatch random_random self env event queue =
      Return (mkOrchestrator (Py.dict_set d best (start_order a c))
                (heapq.heappush queue (completion_of c best))
                c (processed self + 1) (rejected self),
              mkEnv (calls + length candidates)
                (stdout env ++ [Order_accepted c best])).
Proof.
  intros Hty Hnd c d candidates calls Hne.
  destruct (handle_order_arrival_accepts random_random (at_event self event queue) env)
    as (i & best & a & a' & Hi & Hmin & Ha' & Heq); [done|].
  simpl in Hi, Hmin, Ha', Heq. fold c d candidates calls in Hi, Hmin, Ha', Heq.
  pose proof (list_elem_of_lookup_2 _ _ _ Hi) as Hin.
  apply accepting_elem in Hin as [Hin Hcan].
  assert (Hkeys : NoDup (Py.keys d)) by (unfold d; by rewrite refreshed_keys).
  assert (a' = a) as -> by (rewrite (dict_elem_get d best a) in Ha'; congruence).
  exists i, best, a. do 4 (split; [done|]). split.
  - intros n' a' Hn' Hcan'.
    assert ((n', a') ∈ candidates) as Hc.
    { apply accepting_elem. split; [by apply dict_get_Some_elem | done]. }
    apply list_elem_of_lookup in Hc as [j Hj].
    destruct (Hmin j n' a' Hj) as [Hlt|[Heq' _]]; simpl in *; lia.
  - unfold dispatch. rewrite Hty. exact Heq.
Qed.

(** The queue after one iteration of the loop. *)
Lemma dispatch_queue (self : Orchestrator) (env : Env) (event : Event)
    (queue : list Event) :
  let self' := (state_of (dispatch random_random self env event queue)).1 in
  current_time self' = time event /\
  match type event with
  | order_arrival =>
      event_queue self' = queue \/
      exists best, event_queue self' =
                     heapq.heappush queue (completion_of (time event) best)
  | order_completion => event_queue self' = queue
  end.
Proof.
  destruct (type event) eqn:Hty.
  - destruct (dispatch_arrival random_random self env event queue Hty)
      as [[_ ->]|[_ (best & a & a' & _ & _ & ->)]]; simpl; [by auto|].
    split; [done|]. right. by exists best.
  - destruct (dispatch_completion random_random self env event queue Hty)
      as [[_ ->]|[n [_ [[_ ->]|[a [_ ->]]]]]]; simpl; done.
Qed.

Lemma dispatch_queue_after (self : Orchestrator) (env : Env) (event : Event)
    (queue : list Event) :
  heap_ok queue ->
  (forall x, x ∈ queue -> le_time event x) ->
  let self' := (state_of (dispatch random_random self env event queue)).1 in
  heap_ok (event_queue self') /\
  (forall x, x ∈ event_queue self' -> le_time event x).
Proof.
  intros Hq Hmin self'.
  destruct (dispatch_queue self env event queue) as [_ Hcases]. fold self' in Hcases.
  assert (event_queue self' = queue \/
          exists best, event_queue self' =
                         heapq.heappush queue (completion_of (time event) best))
    as [->| [best ->]] by (destruct (type event); auto); [done|].
  split; [by apply heappush_ok|].
  intros x Hx. rewrite heappush_perm in Hx.
  apply elem_of_cons in Hx as [->|Hx]; [|by apply Hmin].
  unfold le_time, completion_of. simpl. apply le_add_5.
Qed.

Lemma process_events_trace_erase (fuel : nat) (self : Orchestrator) (env : Env) :
  process_events random_random fuel self env =
    snd <$> process_events_trace random_random fuel self env.
Proof.
  revert self env. induction fuel as [|fuel IH]; intros self env; simpl.
  - by destruct (heapq.heappop _) as [[??]|].
  - destruct (heapq.heappop _) as [[event queue]|]; [|done].
    destruct (dispatch _ _ _ _ _) as [[s e]|k st]; [|done].
    rewrite IH. by destruct (process_events_trace _ _ _ _) as [[??]|].
Qed.

Lemma trace_sorted (fuel : nat) (self : Orchestrator) (env : Env)
    (popped : list Event) (r : result (Orchestrator * Env)) (lb : Float.t) :
  heap_ok (event_queue self) ->
  (forall x, x ∈ event_queue self -> (lb <= time x)%F) ->
  process_events_trace random_random fuel self env = Some (popped, r) ->
  Sorted le_time popped /\ Forall (fun x => (lb <= time x)%F) popped.
Proof.
  revert self env popped lb.
  induction fuel as [|fuel IH]; intros self env popped lb Hheap Hlb; simpl;
    destruct (heapq.heappop (event_queue self)) as [[event queue]|] eqn:Hpop;
    try done; try (intros [= <- <-]; by split; constructor).
  destruct (heappop_ok _ _ _ Hheap Hpop) as [Hq Hmin].
  assert (lb <= time event)%F as Hev.
  { apply Hlb. rewrite (heappop_perm _ _ _ Hpop). apply list_elem_of_here. }
  pose proof (dispatch_queue_after self env event queue Hq Hmin) as Hafter.
  destruct (dispatch _ _ _ _ _) as [[s e]|k st].
  - destruct (process_events_trace _ fuel s e) as [[popped' r']|] eqn:Hrun; [|done].
    intros [= <- <-]. simpl in Hafter. destruct Hafter as [Hheap' Hmin'].
    destruct (IH s e popped' (time event) Hheap' Hmin' Hrun) as [Hs Hf].
    split.
    + constructor; [done|]. destruct Hf; constructor; done.
    + constructor; [done|]. eapply Forall_impl; [exact Hf|].
      intros x Hx. simpl in Hx. float_lia.
  - intros [= <- <-]. split; repeat constructor; done.
Qed.

Lemma trace_last (fuel : nat) (self : Orchestrator) (env : Env)
    (popped : list Event) (r : result (Orchestrator * Env)) :
  process_events_trace random_random fuel self env = Some (popped, r) ->
  match last popped with
  | Some e => current_time (state_of r).1 = time e
  | None => (state_of r).1 = self
  end.
Proof.
  revert self env popped.
  induction fuel as [|fuel IH]; intros self env popped; simpl;
    destruct (heapq.heappop (event_queue self)) as [[event queue]|] eqn:Hpop;
    try done; try (by intros [= <- <-]).
  destruct (dispatch_queue self env event queue) as [Htime _].
  destruct (dispatch _ _ _ _ _) as [[s e]|k st].
  - destruct (process_events_trace _ fuel s e) as [[popped' r']|] eqn:Hrun; [|done].
    intros [= <- <-]. specialize (IH s e popped' Hrun).
    rewrite last_cons. destruct (last popped'); [done|].
    rewrite IH. exact Htime.
  - intros [= <- <-]. exact Htime.
Qed.

(** One iteration leaves a heap whose events are not earlier than the
    clock; it does not move the clock backward when no queued event was
    earlier than the clock. *)
Lemma iteration_clock (st : Orchestrator * Env) :
  heap_ok (event_queue st.1) ->
  let st' := iteration random_random st in
  heap_ok (event_queue st'.1) /\
  (forall x, x ∈ event_queue st'.1 -> (current_time st'.1 <= time x)%F) /\
  ((forall x, x ∈ event_queue st.1 -> (current_time st.1 <= time x)%F) ->
   (current_time st.1 <= current_time st'.1)%F).
Proof.
  intros Hheap. unfold iteration.
  destruct (heapq.heappop (event_queue st.1)) as [[event queue]|] eqn:Hpop.
  - destruct (heappop_ok _ _ _ Hheap Hpop) as [Hq Hmin].
    destruct (dispatch_queue_after st.1 st.2 event queue Hq Hmin) as [Hheap' Hmin'].
    destruct (dispatch_queue st.1 st.2 event queue) as [Htime _].
    cbv zeta in Htime. split; [done|]. rewrite Htime. split; [exact Hmin'|].
    intros Hlb. apply Hlb. rewrite (heappop_perm _ _ _ Hpop). apply list_elem_of_here.
  - apply heappop_None in Hpop. split; [done|]. rewrite Hpop. split.
    + intros x Hx. by apply elem_of_nil in Hx.
    + intros _. unfold Float.le. lia.
Qed.

Lemma iterations_clock (n : nat) (st : Orchestrator * Env) :
  heap_ok (event_queue st.1) ->
  (forall x, x ∈ event_queue st.1 -> (current_time st.1 <= time x)%F) ->
  let st' := Nat.iter n (iteration random_random) st in
  heap_ok (event_queue st'.1) /\
  (forall x, x ∈ event_queue st'.1 -> (current_time st'.1 <= time x)%F) /\
  (current_time st.1 <= current_time st'.1)%F.
Proof.
  intros Hheap Hlb. induction n as [|n (Hh & Hl & Hc)]; simpl.
  - split; [done|]. split; [done|]. unfold Float.le. lia.
  - destruct (iteration_clock _ Hh) as (Hh' & Hl' & Hc').
    split; [done|]. split; [done|]. specialize (Hc' Hl). float_lia.
Qed.

Lemma iterations_clock_mono (i j : nat) (st : Orchestrator * Env) :
  heap_ok (event_queue st.1) ->
  (forall x, x ∈ event_queue st.1 -> (current_time st.1 <= time x)%F) ->
  i <= j ->
  (current_time (Nat.iter i (iteration random_random) st).1
   <= current_time (Nat.iter j (iteration random_random) st).1)%F.
Proof.
  intros Hheap Hlb Hij.
  replace j with ((j - i) + i) by lia. rewrite Nat.iter_add.
  destruct (iterations_clock i st Hheap Hlb) as (Hh & Hl & _).
  by destruct (iterations_clock (j - i) _ Hh Hl) as (_ & _ & Hc).
Qed.

(** The clock after [i + 1] iterations is the time of the [i]-th event
    popped. *)
Lemma trace_clock (fuel : nat) (self : Orchestrator) (env : Env)
    (popped : list Event) (r : result (Orchestrator * Env)) :
  process_events_trace random_random fuel self env = Some (popped, r) ->
  forall i e, popped !! i = Some e ->
    current_time (Nat.iter (S i) (iteration random_random) (self, env)).1 = time e.
Proof.
  revert self env popped.
  induction fuel as [|fuel IH]; intros self env popped; cbn [process_events_trace];
    destruct (heapq.heappop (event_queue self)) as [[event queue]|] eqn:Hpop;
    try done; try (by intros [= <- <-] i e Hi).
  destruct (dispatch_queue self env event queue) as [Htime _]. cbv zeta in Htime.
  assert (Hstep : iteration random_random (self, env)
                  = state_of (dispatch random_random self env event queue)).
  { unfold iteration. simpl. by rewrite Hpop. }
  destruct (dispatch _ _ _ _ _) as [[s e']|k st] eqn:Hd.
  - destruct (process_events_trace _ fuel s e') as [[popped' r']|] eqn:Hrun; [|done].
    intros [= <- <-] i e Hi. rewrite Nat.iter_succ_r, Hstep. simpl state_of.
    destruct i as [|i]; simpl in Hi.
    + injection Hi as <-. exact Htime.
    + by apply (IH s e' popped' Hrun).
  - intros [= <- <-] i e Hi. destruct i as [|i]; [|done].
    injection Hi as <-. simpl Nat.iter. rewrite Hstep. exact Htime.
Qed.

(** C6, as stated, fails in its last part: the clock starts at 0, so
    after the single arrival at -2 is submitted the first iteration of
    [process_events] moves the clock backward, from 0 to -2.  The popped
    events themselves are in order. *)
Lemma popped_times_nondecreasing_counterexample :
  reachable example_random early_start /\
  current_time early_start = 0%F /\
  (fst <$> process_events_trace example_random 2 early_start (mkEnv 0 []))
  = Some [mkEvent (Float.of_int (-2)) order_arrival [];
          completion_of (Float.of_int (-2)) "Alice"] /\
  current_time (iteration example_random (early_start, mkEnv 0 [])).1
  = Float.of_int (-2) /\
  (current_time (iteration example_random (early_start, mkEnv 0 [])).1
   < current_time early_start)%F.
Proof.
  split.
  { apply reachable_add_order. exact (reachable_init example_random ["Alice"]%string). }
  split; [reflexivity|]. split; [vm_compute; reflexivity|].
  split; [vm_compute; reflexivity|]. vm_compute. reflexivity.
Qed.

(** C6, amended. Monotonic time: the events that one run of
    [process_events] pops from a reachable orchestrator come out in
    non-decreasing order of time, the completion events pushed during
    the run included.  The clock after each iteration is the time of the
    event popped in it, so it ends at the time of the last one; from the
    first iteration on the clock never moves backward, and it never
    moves backward at all when no queued event is earlier than the clock
    at the start of the run. *)
Theorem popped_times_nondecreasing (fuel : nat) (self : Orchestrator) (env : Env)
    (popped : list Event) (r : result (Orchestrator * Env)) :
  reachable random_random self ->
  process_events_trace random_random fuel self env = Some (popped, r) ->
  let clock i := current_time (Nat.iter i (iteration random_random) (self, env)).1 in
  Sorted le_time popped /\
  process_events random_random fuel self env = Some r /\
  match last popped with
  | Some e => current_time (state_of r).1 = time e
  | None => (state_of r).1 = self
  end /\
  (forall i e, popped !! i = Some e -> clock (S i) = time e) /\
  (forall i j, 1 <= i <= j -> (clock i <= clock j)%F) /\
  ((forall x, x ∈ event_queue self -> (current_time self <= time x)%F) ->
   forall i j, i <= j -> (clock i <= clock j)%F).
Proof.
  intros Hreach Hrun clock. apply reachable_wf in Hreach.
  pose proof (wf_heap _ Hreach) as Hheap.
  split; [|split; [|split; [|split; [|split]]]].
  - destruct (event_queue self) as [|e0 q] eqn:Hq.
    + eapply (trace_sorted fuel self env popped r 0); [by rewrite Hq | | done].
      rewrite Hq. intros x Hx. by apply elem_of_nil in Hx.
    + eapply (trace_sorted fuel self env popped r (time e0));
        [by rewrite Hq | | done].
      rewrite Hq. intros x Hx. by apply (root_minimal_elem e0 x q).
  - by rewrite process_events_trace_erase, Hrun.
  - by eapply trace_last.
  - by apply trace_clock with fuel r.
  - intros i j [Hi Hij]. unfold clock.
    destruct (iteration_clock (self, env) Hheap) as (Hh & Hl & _).
    replace i with ((i - 1) + 1) by lia. replace j with ((j - 1) + 1) by lia.
    rewrite !(Nat.iter_add _ 1). simpl Nat.iter at 2 4.
    apply iterations_clock_mono; [done | done | lia].
  - intros Hlb i j Hij. by apply iterations_clock_mono.
Qed.

(** C9. Termination: from a reachable orchestrator, [process_events]
    returns once it has fuel for the pending work (two units per queued
    arrival, one per queued completion), and whenever it returns the
    queue is empty; an iteration on a completion pushes nothing and an
    iteration on an arrival pushes at most one completion. *)
Theorem process_events_stops_on_empty_queue (self : Orchestrator) (env : Env) :
  reachable random_random self ->
  (forall fuel, pending_work (event_queue self) <= fuel ->
     exists self' env',
       process_events random_random fuel self env = Some (Return (self', env')) /\
       event_queue self' = []) /\
  (forall fuel r, process_events random_random fuel self env = Some r ->
     returns r = true /\ event_queue (state_of r).1 = []) /\
  (forall event queue,
     let self' := (state_of (dispatch random_random self env event queue)).1 in
     match type event with
     | order_arrival =>
         event_queue self' = queue \/
         exists best, event_queue self' =
                        heapq.heappush queue (completion_of (time event) best)
     | order_completion => event_queue self' = queue
     end).
Proof.
  intros Hreach. apply reachable_wf in Hreach. split; [|split].
  - intros fuel Hfuel.
    destruct (process_events_terminates random_random fuel self env Hreach Hfuel)
      as (self' & env' & Hrun).
    exists self', env'. split; [done|]. by eapply process_events_returns_empty.
  - intros fuel r Hrun.
    destruct (process_events_wf random_random fuel self env r Hreach Hrun) as [_ Hret].
    split; [done|]. destruct r as [[s e]|]; [|done].
    by eapply process_events_returns_empty.
  - intros event queue. apply dispatch_queue.
Qed.

Lemma dispatch_counters (self : Orchestrator) (env : Env) (event : Event)
    (queue : list Event) :
  let self' := (state_of (dispatch random_random self env event queue)).1 in
  let candidates :=
    accepting (refreshed (attendants self) (time event)) (time event) in
  match type event, candidates with
  | order_arrival, [] =>
      processed self' = processed self /\ rejected self' = rejected self + 1
  | order_arrival, _ :: _ =>
      processed self' = processed self + 1 /\ rejected self' = rejected self
  | order_completion, _ =>
      processed self' = processed self /\ rejected self' = rejected self
  end.
Proof.
  destruct (type event) eqn:Hty.
  - destruct (dispatch_arrival random_random self env event queue Hty)
      as [[Hc ->]|[Hc (best & a & a' & _ & _ & ->)]]; simpl.
    + by rewrite Hc.
    + by destruct (accepting _ _).
  - destruct (dispatch_completion random_random self env event queue Hty)
      as [[_ ->]|[n [_ [[_ ->]|[a [_ ->]]]]]]; simpl; done.
Qed.

Lemma dispatch_counters_sum (self : Orchestrator) (env : Env) (event : Event)
    (queue : list Event) :
  let self' := (state_of (dispatch random_random self env event queue)).1 in
  processed self' + rejected self' =
    processed self + rejected self + (if is_arrival event then 1 else 0) /\
  processed self <= processed self' /\ rejected self <= rejected self'.
Proof.
  pose proof (dispatch_counters self env event queue) as H. simpl in H.
  unfold is_arrival. destruct (type event); [destruct (accepting _ _)|]; simpl; lia.
Qed.

Lemma trace_counters (fuel : nat) (self : Orchestrator) (env : Env)
    (popped : list Event) (r : result (Orchestrator * Env)) :
  process_events_trace random_random fuel self env = Some (popped, r) ->
  processed (state_of r).1 + rejected (state_of r).1 =
    processed self + rejected self + arrivals popped /\
  processed self <= processed (state_of r).1 /\
  rejected self <= rejected (state_of r).1.
Proof.
  revert self env popped.
  induction fuel as [|fuel IH]; intros self env popped; simpl;
    destruct (heapq.heappop (event_queue self)) as [[event queue]|] eqn:Hpop;
    try done; try (intros [= <- <-]; unfold arrivals; simpl; lia).
  pose proof (dispatch_counters_sum self env event queue) as Hstep.
  destruct (dispatch _ _ _ _ _) as [[s e]|k st]; simpl in Hstep.
  - destruct (process_events_trace _ fuel s e) as [[popped' r']|] eqn:Hrun; [|done].
    intros [= <- <-]. specialize (IH s e popped' Hrun).
    unfold arrivals in *. simpl. destruct (is_arrival event); simpl; lia.
  - intros [= <- <-]. unfold arrivals. simpl. destruct (is_arrival event); simpl; lia.
Qed.

(** C10. Counters: [add_order] and [update_attendant_status] leave both
    counters alone; an iteration of the loop on an arrival adds one to
    [processed] when the candidate set is not empty and one to [rejected]
    when it is empty, and leaves the other counter alone; an iteration on
    a completion leaves both alone.  Hence over a run the sum of the
    counters grows by the number of arrivals popped, and neither counter
    decreases. *)
Theorem counters_count_arrivals :
  (forall self t,
     processed (add_order self t) = processed self /\
     rejected (add_order self t) = rejected self) /\
  (forall self name s,
     processed (state_of (update_attendant_status self name s)) = processed self /\
     rejected (state_of (update_attendant_status self name s)) = rejected self) /\
  (forall self env event queue,
     let self' := (state_of (dispatch random_random self env event queue)).1 in
     let candidates :=
       accepting (refreshed (attendants self) (time event)) (time event) in
     match type event, candidates with
     | order_arrival, [] =>
         processed self' = processed self /\ rejected self' = rejected self + 1
     | order_arrival, _ :: _ =>
         processed self' = processed self + 1 /\ rejected self' = rejected self
     | order_completion, _ =>
         processed self' = processed self /\ rejected self' = rejected self
     end) /\
  (forall fuel self env popped r,
     process_events_trace random_random fuel self env = Some (popped, r) ->
     processed (state_of r).1 + rejected (state_of r).1 =
       processed self + rejected self + arrivals popped /\
     processed self <= processed (state_of r).1 /\
     rejected self <= rejected (state_of r).1).
Proof.
  split; [done|]. split; [|split].
  - intros self name s. unfold update_attendant_status.
    by destruct (Py.dict_get _ _).
  - apply dispatch_counters.
  - apply trace_counters.
Qed.

End Claims.

(** ** The scenario *)

Lemma reachable_example_start (random_random : nat -> Float.t) :
  reachable random_random example_start.
Proof.
  do 2 apply reachable_add_order. apply reachable_update_attendant_status.
  exact (reachable_init random_random ["Alice"; "Bob"]%string).
Defined.

Lemma reachable_iterate (random_random : nat -> Float.t) (st : Orchestrator * Env) :
  reachable random_random st.1 -> reachable random_random (iteration random_random st).1.
Proof.
  intros H. unfold iteration.
  destruct (heapq.heappop (event_queue st.1)) as [[event queue]|] eqn:Hpop; [|done].
  by apply reachable_iteration.
Defined.

(** On the samples [Float.add] is the addition of the Standard Library's
    specification of IEEE 754 binary64. *)
Example add_agrees_with_SFadd :
  forallb (fun xy => Float.agrees_with_SFadd xy.1 xy.2) add_samples = true.
Proof. vm_compute. reflexivity. Qed.

(** The second order arrives at the time [1.02 + 3] rounds to: the
    attendant takes it, and both orders are processed. *)
Example cooldown_start_run :
  exists self' env',
    process_events example_random 4 cooldown_start (mkEnv 0 []) =
      Some (Return (self', env')) /\
    processed self' = 2 /\ rejected self' = 0.
Proof. eexists _, _. split; [vm_compute; reflexivity|]. split; reflexivity. Qed.

(** Two orders 2 apart are both taken when [2^53 + 2 + 3] rounds to
    [2^53 + 4], and both complete at [2^53 + 8]. *)
Example large_start_run :
  exists popped self' env',
    process_events_trace example_random 4 large_start (mkEnv 0 []) =
      Some (popped, Return (self', env')) /\
    map time popped = [Float.of_int 9007199254740994; Float.of_int 9007199254740996;
                       Float.of_int 9007199254741000; Float.of_int 9007199254741000] /\
    processed self' = 2 /\ rejected self' = 0.
Proof.
  eexists _, _, _. split; [vm_compute; reflexivity|].
  split; [vm_compute; reflexivity|]. split; reflexivity.
Qed.

Lemma capacity_invariant_witness :
  exists a,
    Py.dict_get (attendants (example_after 2).1) "Bob" = Some a /\
    length (active_orders a) = 2 /\
    length (active_orders a) <= 2.
Proof.
  eexists. split; [vm_compute; reflexivity|]. split; [reflexivity|].
  apply (capacity_invariant example_random (example_after 2).1 "Bob").
  - do 2 apply reachable_iterate. apply reachable_example_start.
  - vm_compute. apply list_elem_of_further, list_elem_of_here.
Defined.

Lemma arrival_goes_to_least_loaded_witness :
  exists best a self' env',
    Py.dict_get (refreshed (attendants main_orchestrator) 0) best = Some a /\
    best = "Bob"%string /\
    dispatch example_random main_orchestrator (mkEnv 0 [])
      (mkEvent 0 order_arrival []) [] = Return (self', env') /\
    Py.dict_get (attendants self') best = Some (start_order a 0).
Proof.
  destruct (arrival_goes_to_least_loaded example_random main_orchestrator (mkEnv 0 [])
              (mkEvent 0 order_arrival []) [])
    as (i & best & a & Hi & Ha & _ & Hmin & _ & Heq).
  - reflexivity.
  - apply (bool_decide_unpack _). vm_compute. exact I.
  - vm_compute. discriminate.
  - exists best, a. eexists _, _. split; [exact Ha|]. split.
    + destruct i as [|[|i]]; vm_compute in Hi; [|congruence|discriminate Hi].
      exfalso. injection Hi as <- <-.
      destruct (Hmin 1 "Bob"%string
                  (update_state (Attendant_init "Bob") 0) eq_refl) as [H|[_ H]];
        vm_compute in H; [lia | by apply H].
    + split; [exact Heq|]. exact (dict_get_set_eq _ best _).
Defined.

Lemma popped_times_nondecreasing_witness :
  exists popped r,
    process_events_trace example_random 4 example_start (mkEnv 0 []) = Some (popped, r) /\
    map time popped = [0; 3; 0 + 5; 3 + 5]%F /\
    Sorted le_time popped /\
    (current_time (example_after 0).1 <= current_time (example_after 4).1)%F.
Proof.
  eexists _, _. split; [vm_compute; reflexivity|]. split; [reflexivity|].
  destruct (popped_times_nondecreasing example_random 4 example_start (mkEnv 0 [])
              _ _ (reachable_example_start _) ltac:(vm_compute; reflexivity))
    as (Hsorted & _ & _ & _ & _ & Hclock).
  split; [exact Hsorted|]. apply (Hclock ltac:(vm_compute; intros x Hx;
    repeat (apply elem_of_cons in Hx as [->|Hx]; [vm_compute; discriminate|]);
    by apply elem_of_nil in Hx) 0 4). lia.
Defined.

Lemma process_events_stops_on_empty_queue_witness :
  exists self' env',
    process_events example_random (pending_work (event_queue example_start))
      example_start (mkEnv 0 []) = Some (Return (self', env')) /\
    event_queue self' = [].
Proof.
  apply (proj1 (process_events_stops_on_empty_queue example_random example_start
                  (mkEnv 0 []) (reachable_example_start _))).
  apply le_n.
Defined.

Lemma counters_count_arrivals_witness :
  exists popped r,
    process_events_trace example_random 4 example_start (mkEnv 0 []) = Some (popped, r) /\
    arrivals popped = 2 /\
    processed (state_of r).1 + rejected (state_of r).1 = 0 + 0 + arrivals popped.
Proof.
  eexists _, _. split; [vm_compute; reflexivity|]. split; [reflexivity|].
  refine (proj1 (proj2 (proj2 (proj2 (counters_count_arrivals example_random)))
                   4 example_start (mkEnv 0 []) _ _ _)).
  vm_compute. reflexivity.
Defined.

(** * Further properties *)

(** ** [list.sort] and [Attendant.start_order] *)

Lemma insort_perm (x : Float.t) (l : list Float.t) : Py.insort x l ≡ₚ x :: l.
Proof.
  induction l as [|y l IH]; simpl; [done|].
  destruct (Py.float_lt y x); [|done]. rewrite IH. apply perm_swap.
Qed.

Lemma sort_perm (l : list Float.t) : Py.sort l ≡ₚ l.
Proof.
  induction l as [|x l IH]; simpl; [done|]. by rewrite insort_perm, IH.
Qed.

Lemma insort_sorted (x : Float.t) (l : list Float.t) :
  Sorted Float.le l -> Sorted Float.le (Py.insort x l).
Proof.
  induction l as [|y l IH]; simpl; intros Hs.
  - by repeat constructor.
  - apply Sorted_inv in Hs as [Hs Hhd].
    float_case (Py.float_lt y x).
    + constructor; [by apply IH|].
      destruct l as [|z l]; simpl.
      * constructor. float_lia.
      * apply HdRel_inv in Hhd. destruct (Py.float_lt z x); constructor; float_lia.
    + constructor; [by constructor|]. by constructor.
Qed.

Lemma sort_sorted (l : list Float.t) : Sorted Float.le (Py.sort l).
Proof.
  induction l as [|x l IH]; simpl; [constructor | by apply insort_sorted].
Qed.

(** The orders after [start_order]. *)
Lemma start_order_orders (a : Attendant) (t : Float.t) :
  Sorted Float.le (active_orders (start_order a t)) /\
  active_orders (start_order a t) ≡ₚ t :: active_orders a /\
  name (start_order a t) = name a /\
  status (start_order a t) = status a /\
  next_available (start_order a t) = next_available a.
Proof.
  split; [apply sort_sorted|]. split; [|done].
  simpl. rewrite sort_perm. symmetry. apply Permutation_cons_append.
Qed.

(** X5. [start_order] leaves the orders of the attendant sorted in
    ascending order, whatever they were, and they are the old orders
    and the new start time; name, status and [next_available] are as
    before. *)
Theorem start_order_sorted_perm (a : Attendant) (t : Float.t) :
  Sorted Float.le (active_orders (start_order a t)) /\
  active_orders (start_order a t) ≡ₚ t :: active_orders a /\
  name (start_order a t) = name a /\
  status (start_order a t) = status a /\
  next_available (start_order a t) = next_available a.
Proof. exact (start_order_orders a t). Qed.

(** ** [Attendant.update_state] followed by [Attendant.can_accept] *)

Lemma filter_kept_head (c s0 : Float.t) (l rest : list Float.t) :
  List.filter (kept c) l = s0 :: rest -> (c < s0 + 5)%F.
Proof.
  intros H. assert (In s0 (List.filter (kept c) l)) as Hin by (rewrite H; by left).
  apply filter_In in Hin as [_ Hk]. by apply float_gt_true in Hk.
Qed.

Lemma update_state_next_available (a : Attendant) (c : Float.t) :
  (c <= next_available (update_state a c))%F.
Proof.
  unfold update_state. fold (kept c). simpl.
  destruct (List.filter (kept c) (active_orders a)) as [|s0 [|s1 rest]] eqn:Hf.
  - float_lia.
  - unfold Py.max. float_case (Py.float_gt (s0 + 3) c); float_lia.
  - apply filter_kept_head in Hf.
    unfold Py.max. float_case (Py.float_gt (s1 + 3) (s0 + 5)); float_lia.
Qed.

(** When a refreshed attendant accepts. *)
Lemma can_accept_update_state_iff (a : Attendant) (c : Float.t) :
  (c <= next_available (update_state a c))%F /\
  (can_accept (update_state a c) c = true <->
   status a = active /\
   (active_orders (update_state a c) = [] \/
    exists s0, active_orders (update_state a c) = [s0] /\ (s0 + 3 <= c)%F)).
Proof.
  split; [apply update_state_next_available|].
  unfold can_accept, update_state. fold (kept c). simpl.
  case_bool_decide as Hst; simpl; [|split; [done | by intros [? _]]].
  destruct (List.filter (kept c) (active_orders a)) as [|s0 [|s1 rest]] eqn:Hf; simpl.
  - rewrite andb_true_r, float_ge_true. split; [by auto | intros _; float_lia].
  - rewrite andb_true_r, float_ge_true. unfold Py.max.
    float_case (Py.float_gt (s0 + 3) c); split.
    + intros ?. float_lia.
    + intros [_ [?|[s [[= <-] ?]]]]; [done | float_lia].
    + intros _. split; [done|]. right. by exists s0.
    + intros _. float_lia.
  - rewrite andb_false_r. split; [done|].
    intros [_ [?|[s [? _]]]]; done.
Qed.

(** X4. Availability after a refresh: an attendant refreshed at time [c]
    can accept at [c] exactly when it is active and either holds no
    order any more, or holds one order, started at [s0], with the
    double-precision sum [s0 + 3] at [c] or before.
    With two orders left it never accepts, and [next_available] is never
    before [c]. *)
Theorem can_accept_after_update_state (a : Attendant) (c : Float.t) :
  (c <= next_available (update_state a c))%F /\
  (can_accept (update_state a c) c = true <->
   status a = active /\
   (active_orders (update_state a c) = [] \/
    exists s0, active_orders (update_state a c) = [s0] /\ (s0 + 3 <= c)%F)).
Proof. exact (can_accept_update_state_iff a c). Qed.

(** ** Orders in flight *)

Lemma dict_set_elem_other {V} (d : Py.dict V) (k : string) (v : V) (k' : string) (v' : V) :
  NoDup (Py.keys d) ->
  (k', v') ∈ Py.dict_set d k v -> (k', v') = (k, v) \/ ((k', v') ∈ d /\ k' <> k).
Proof.
  induction d as [|[k0 v0] d IH]; simpl; intros Hnd Hin.
  - apply list_elem_of_singleton in Hin. by left.
  - apply NoDup_cons in Hnd as [Hk0 Hnd].
    destruct (String.eqb_spec k0 k) as [->|Hne];
      apply elem_of_cons in Hin as [Hin|Hin].
    + by left.
    + right. split; [by apply list_elem_of_further|].
      intros ->. apply Hk0. apply list_elem_of_fmap. by exists (k, v').
    + right. injection Hin as -> ->. split; [apply list_elem_of_here | done].
    + destruct (IH Hnd Hin) as [?|[? ?]]; [by left|].
      right. split; [by apply list_elem_of_further | done].
Qed.

Lemma init_roster_Forall (P : Attendant -> Prop) (l : list Attendant)
    (d : Py.dict Attendant) :
  (forall n a, (n, a) ∈ d -> P a) -> Forall P l ->
  forall n a, (n, a) ∈ foldl (fun d a => Py.dict_set d (name a) a) d l -> P a.
Proof.
  revert d. induction l as [|x l IH]; intros d Hd Hl; simpl; [done|].
  apply Forall_cons in Hl as [Hx Hl]. apply IH; [|done].
  intros n a Hin. apply dict_set_elem in Hin as [[= -> ->]|Hin]; [done | by eapply Hd].
Qed.

Lemma pipelined_filter (c : Float.t) (l : list Float.t) :
  pipelined l -> pipelined (List.filter (kept c) l).
Proof.
  destruct l as [|s0 [|s1 [|s2 l]]]; simpl; try done.
  - by destruct (kept c s0).
  - by destruct (kept c s0), (kept c s1).
Qed.

Lemma pipelined_sorted (l : list Float.t) : pipelined l -> Sorted Float.le l.
Proof.
  destruct l as [|s0 [|s1 [|s2 l]]]; simpl; try done.
  - by repeat constructor.
  - intros [H _]. pose proof (le_add_3 s0). repeat constructor. float_lia.
Qed.

Lemma update_state_orders_sub (a : Attendant) (c s : Float.t) :
  s ∈ active_orders (update_state a c) -> s ∈ active_orders a /\ (c < s + 5)%F.
Proof.
  rewrite update_state_orders, !list_elem_of_In, filter_In.
  intros [? Hk]. split; [done|]. by apply float_gt_true in Hk.
Qed.

Lemma update_state_pipelined (a : Attendant) (c : Float.t) :
  pipelined (active_orders a) -> pipelined (active_orders (update_state a c)).
Proof. rewrite update_state_orders. apply pipelined_filter. Qed.

(** Accepting an order in a refreshed attendant keeps the orders
    pipelined. *)
Lemma start_order_pipelined (a : Attendant) (c : Float.t) :
  pipelined (active_orders a) ->
  can_accept (update_state a c) c = true ->
  pipelined (active_orders (start_order (update_state a c) c)).
Proof.
  intros Hp Hcan. apply can_accept_update_state_iff in Hcan as [_ Hcan].
  change (pipelined (Py.sort (active_orders (update_state a c) ++ [c]))).
  destruct Hcan as [Hs|[s0 [Hs Hle]]]; rewrite Hs; simpl; [done|].
  rewrite update_state_orders in Hs. apply filter_kept_head in Hs.
  pose proof (le_add_3 s0).
  float_case (Py.float_lt c s0); [float_lia|]. simpl. split; float_lia.
Qed.

Lemma orders_ok_init (names : list string) :
  orders_ok (Orchestrator_init (map Attendant_init names)).
Proof.
  intros n a Hin.
  assert (active_orders a = []) as ->.
  { revert n a Hin. apply init_roster_Forall.
    - intros n a Hin. by apply elem_of_nil in Hin.
    - apply Forall_forall. intros a Ha.
      change (map ?f names) with (f <$> names) in Ha.
      by apply list_elem_of_fmap in Ha as [n [-> _]]. }
  split; [done|]. intros s Hs. by apply elem_of_nil in Hs.
Qed.

Lemma orders_ok_add_order (self : Orchestrator) (t : Float.t) :
  orders_ok self -> orders_ok (add_order self t).
Proof.
  intros Hok n a Hin. destruct (Hok n a Hin) as [Hp Hc]. split; [done|].
  intros s Hs. simpl. rewrite heappush_perm. apply list_elem_of_further. by apply Hc.
Qed.

Lemma orders_ok_update_attendant_status (self : Orchestrator) (name : string)
    (s : Status) :
  orders_ok self -> orders_ok (state_of (update_attendant_status self name s)).
Proof.
  intros Hok. unfold update_attendant_status.
  destruct (Py.dict_get (attendants self) name) as [a|] eqn:Ha; [|done].
  pose proof (Hok _ _ (dict_get_Some_elem _ _ _ Ha)) as [Hp Hc].
  intros n x Hin. simpl in Hin.
  apply dict_set_elem in Hin as [[= -> ->]|Hin]; [|by apply Hok].
  simpl. case_bool_decide.
  - split; [by apply (update_state_pipelined (set_status a s))|].
    intros t Ht. apply update_state_orders_sub in Ht as [Ht _]. by apply Hc.
  - done.
Qed.

Section OrdersInFlight.

Variable random_random : nat -> Float.t.

Lemma orders_ok_dispatch (self : Orchestrator) (env : Env) (event : Event)
    (queue : list Event) :
  wf self -> orders_ok self ->
  heapq.heappop (event_queue self) = Some (event, queue) ->
  orders_ok (state_of (dispatch random_random self env event queue)).1.
Proof.
  intros [H1 H2 H3 H4] Hok Hpop.
  pose proof (heappop_perm _ _ _ Hpop) as Hperm.
  assert (Hkeep : forall e, e ∈ event_queue self -> e <> event -> e ∈ queue).
  { intros e He Hne. rewrite Hperm in He.
    by apply elem_of_cons in He as [?|?]. }
  destruct (type event) eqn:Hty.
  - assert (Hq : forall s n, completion_of s n ∈ event_queue self ->
                   completion_of s n ∈ queue).
    { intros s n He. apply Hkeep; [done|]. intros <-. done. }
    set (c := time event). set (d := refreshed (attendants self) c).
    assert (Hd : forall n a, (n, a) ∈ d ->
              pipelined (active_orders a) /\
              forall s, s ∈ active_orders a -> completion_of s n ∈ queue).
    { intros n a Hin. apply refreshed_elem in Hin as [a0 [Hin ->]].
      destruct (Hok n a0 Hin) as [Hp Hc].
      split; [by apply update_state_pipelined|].
      intros s Hs. apply update_state_orders_sub in Hs as [Hs _]. by apply Hq, Hc. }
    destruct (dispatch_arrival random_random self env event queue Hty)
      as [[Hacc ->]|[Hacc (best & a & a' & Hin & Ha' & ->)]]; fold c d; simpl.
    + exact Hd.
    + fold c d in Hin, Ha'. apply accepting_elem in Hin as [Hin Hcan].
      assert (Hkeys : NoDup (Py.keys d)) by (unfold d; by rewrite refreshed_keys).
      assert (a' = a) as ->.
      { rewrite (dict_elem_get d best a) in Ha'; congruence. }
      intros n x Hx. simpl in Hx.
      apply dict_set_elem in Hx as [[= -> ->]|Hx].
      * apply refreshed_elem in Hin as [a0 [Hin0 ->]].
        destruct (Hok best a0 Hin0) as [Hp Hc].
        split; [by apply start_order_pipelined|].
        intros s Hs. simpl. rewrite heappush_perm.
        destruct (start_order_orders (update_state a0 c) c) as (_ & Hperm' & _).
        rewrite Hperm' in Hs. apply elem_of_cons in Hs as [->|Hs].
        -- apply list_elem_of_here.
        -- apply list_elem_of_further.
           apply update_state_orders_sub in Hs as [Hs _]. by apply Hq, Hc.
      * destruct (Hd n x Hx) as [Hp Hc]. split; [done|].
        intros s Hs. simpl. rewrite heappush_perm. apply list_elem_of_further.
        by apply Hc.
  - set (c := time event).
    destruct (H4 event) as [n0 [Hn0 Hk0]];
      [rewrite Hperm; apply list_elem_of_here | done |].
    destruct (dispatch_completion random_random self env event queue Hty)
      as [[Hnone _]|[n [Hn [[Hnone _]|[a [Ha ->]]]]]]; [congruence | |].
    { assert (n = n0) as -> by congruence. by apply dict_get_None in Hnone. }
    intros n' x Hx. simpl in Hx.
    apply (dict_set_elem_other _ _ _ _ _ H1) in Hx as [[= -> ->]|[Hx Hne]].
    + destruct (Hok _ _ (dict_get_Some_elem _ _ _ Ha)) as [Hp Hc].
      split; [by apply update_state_pipelined|].
      intros s Hs. simpl. fold c in Hs.
      apply update_state_orders_sub in Hs as [Hs Hlt].
      apply Hkeep; [by apply Hc|]. intros <-. unfold c in Hlt. simpl in Hlt. float_lia.
    + destruct (Hok n' x Hx) as [Hp Hc]. split; [done|].
      intros s Hs. simpl. apply Hkeep; [by apply Hc|]. intros <-.
      simpl in Hn. congruence.
Qed.

Lemma orders_ok_process_events (fuel : nat) (self : Orchestrator) (env : Env)
    (r : result (Orchestrator * Env)) :
  wf self -> orders_ok self ->
  process_events random_random fuel self env = Some r ->
  orders_ok (state_of r).1.
Proof.
  revert self env. induction fuel as [|fuel IH]; intros self env Hwf Hok; simpl.
  - destruct (heapq.heappop (event_queue self)) as [[event queue]|] eqn:Hpop; [done|].
    by intros [= <-].
  - destruct (heapq.heappop (event_queue self)) as [[event queue]|] eqn:Hpop.
    + pose proof (orders_ok_dispatch self env event queue Hwf Hok Hpop) as Hok'.
      destruct (dispatch_wf random_random self env event queue Hwf Hpop)
        as (s & e & Heq & Hwf' & _).
      rewrite Heq in Hok' |- *. by apply IH.
    + by intros [= <-].
Qed.

Lemma reachable_orders_ok (self : Orchestrator) :
  reachable random_random self -> orders_ok self.
Proof.
  induction 1 as [names | self t Hr IH | self name s Hr IH
                 | self env event queue Hr IH Hpop | self env fuel r Hr IH Hrun].
  - apply orders_ok_init.
  - by apply orders_ok_add_order.
  - by apply orders_ok_update_attendant_status.
  - apply orders_ok_dispatch; [by apply (reachable_wf random_random) | done | done].
  - eapply orders_ok_process_events; [by apply (reachable_wf random_random) | done | done].
Qed.

(** X1. Pipelining invariant: in every reachable orchestrator the orders
    of an attendant are sorted in ascending order, and when there are
    two, started at [s0] and [s1], the second is not before the
    double-precision sum [s0 + 3] and is before the double-precision sum
    [s0 + 5]. *)
Theorem orders_pipelined (self : Orchestrator) (n : string) (a : Attendant) :
  reachable random_random self ->
  (n, a) ∈ attendants self ->
  Sorted Float.le (active_orders a) /\
  match active_orders a with
  | [] | [_] => True
  | [s0; s1] => (s0 + 3 <= s1)%F /\ (s1 < s0 + 5)%F
  | _ => False
  end.
Proof.
  intros Hr Hin. destruct (reachable_orders_ok self Hr n a Hin) as [Hp _].
  split; [by apply pipelined_sorted | exact Hp].
Qed.

(** X2. Every order in flight has its completion pending: in every
    reachable orchestrator, for each order started at [s] that an
    attendant still holds, the queue holds the completion event of that
    attendant at the double-precision sum [s + 5]. *)
Theorem order_has_pending_completion (self : Orchestrator) (n : string)
    (a : Attendant) (s : Float.t) :
  reachable random_random self ->
  (n, a) ∈ attendants self ->
  s ∈ active_orders a ->
  mkEvent (s + 5) order_completion [("attendant"%string, n)] ∈ event_queue self.
Proof.
  intros Hr Hin Hs. destruct (reachable_orders_ok self Hr n a Hin) as [_ Hc].
  by apply Hc.
Qed.

(** X3. When [process_events] is over, started from a reachable
    orchestrator, no attendant holds an order. *)
Theorem process_events_leaves_idle (fuel : nat) (self : Orchestrator) (env : Env)
    (r : result (Orchestrator * Env)) (n : string) (a : Attendant) :
  reachable random_random self ->
  process_events random_random fuel self env = Some r ->
  (n, a) ∈ attendants (state_of r).1 ->
  active_orders a = [].
Proof.
  intros Hr Hrun Hin.
  pose proof (reachable_process_events random_random self env fuel r Hr Hrun) as Hr'.
  destruct (process_events_wf random_random fuel self env r
              (reachable_wf random_random self Hr) Hrun) as [_ Hret].
  destruct r as [[s e]|]; [|done].
  pose proof (process_events_returns_empty random_random fuel self env s e Hrun) as Hq.
  destruct (active_orders a) as [|t l] eqn:Ha; [done|].
  destruct (reachable_orders_ok s Hr' n a Hin) as [_ Hc]. specialize (Hc t).
  rewrite Ha in Hc. simpl in Hq. rewrite Hq in Hc.
  specialize (Hc (list_elem_of_here _ _)). by apply elem_of_nil in Hc.
Qed.

End OrdersInFlight.

(** ** What a run does with the queue, the counters and the log *)

Lemma filter_Permutation {A} (f : A -> bool) (l l' : list A) :
  l ≡ₚ l' -> List.filter f l ≡ₚ List.filter f l'.
Proof.
  induction 1 as [|x l l' _ IH|x y l|l1 l2 l3 _ IH1 _ IH2]; simpl.
  - done.
  - destruct (f x); [by apply perm_skip | done].
  - destruct (f x), (f y); try done. apply perm_swap.
  - by etrans.
Qed.

Lemma arrivals_push (queue : list Event) (e : Event) :
  arrivals (heapq.heappush queue e) = (if is_arrival e then 1 else 0) + arrivals queue.
Proof.
  unfold arrivals. rewrite (filter_Permutation _ _ _ (heappush_perm queue e)). simpl.
  by destruct (is_arrival e).
Qed.

Lemma statuses_refreshed (d : Py.dict Attendant) (c : Float.t) :
  statuses (refreshed d c) = statuses d.
Proof. unfold statuses, refreshed. rewrite map_map. by apply map_ext. Qed.

Lemma statuses_dict_set (d : Py.dict Attendant) (k : string) (a v : Attendant) :
  Py.dict_get d k = Some a -> name v = name a -> status v = status a ->
  statuses (Py.dict_set d k v) = statuses d.
Proof.
  intros Hget Hn Hs. induction d as [|[k0 a0] d IH]; simpl in *; [done|].
  destruct (String.eqb k0 k); simpl.
  - injection Hget as ->. unfold statuses. simpl. by rewrite Hn, Hs.
  - unfold statuses in *. simpl. by rewrite IH.
Qed.

Lemma statuses_lookup (d d' : Py.dict Attendant) :
  statuses d = statuses d' ->
  Py.keys d = Py.keys d' /\
  forall n, status <$> Py.dict_get d n = status <$> Py.dict_get d' n.
Proof.
  revert d'. induction d as [|[k a] d IH]; intros [|[k' a'] d']; simpl; try done.
  intros [= -> Hn Hs Hrest]. destruct (IH d' Hrest) as [Hk Hl].
  split; [by rewrite Hk|]. intros n. destruct (String.eqb k' n); simpl; [by rewrite Hs|].
  apply Hl.
Qed.

Lemma Sorted_map_time (l : list Event) : Sorted le_time l -> Sorted Float.le (map time l).
Proof.
  induction 1 as [|e l _ IH Hhd]; simpl; constructor; [done|].
  destruct Hhd; simpl; by constructor.
Qed.

Section Run.

Variable random_random : nat -> Float.t.

(** What one iteration does to the queue, to [processed], to the log and
    to the names and statuses of the roster. *)
Lemma dispatch_summary (self : Orchestrator) (env : Env) (event : Event)
    (queue : list Event) (s : Orchestrator) (e : Env) :
  dispatch random_random self env event queue = Return (s, e) ->
  ((event_queue s = queue /\ processed s = processed self) \/
   (exists best, event_queue s = heapq.heappush queue (completion_of (time event) best) /\
      processed s = processed self + 1)) /\
  (exists line, stdout e = stdout env ++ [line] /\ Output_time line = time event).
Proof.
  destruct (type event) eqn:Hty.
  - destruct (dispatch_arrival random_random self env event queue Hty)
      as [[_ ->]|[_ (best & a & a' & _ & _ & ->)]]; intros [= <- <-]; simpl.
    + split; [by left | by eexists].
    + split; [right; by exists best | by eexists].
  - destruct (dispatch_completion random_random self env event queue Hty)
      as [[_ ->]|[n [_ [[_ ->]|[a [_ ->]]]]]]; intros [= <- <-]; simpl.
    split; [by left | by eexists].
Qed.

Lemma dispatch_statuses (self : Orchestrator) (env : Env) (event : Event)
    (queue : list Event) :
  statuses (attendants (state_of (dispatch random_random self env event queue)).1)
  = statuses (attendants self).
Proof.
  destruct (type event) eqn:Hty.
  - destruct (dispatch_arrival random_random self env event queue Hty)
      as [[_ ->]|[_ (best & a & a' & _ & Ha' & ->)]]; simpl.
    + apply statuses_refreshed.
    + rewrite (statuses_dict_set _ _ a') by done. apply statuses_refreshed.
  - destruct (dispatch_completion random_random self env event queue Hty)
      as [[_ ->]|[n [_ [[_ ->]|[a [Ha ->]]]]]]; simpl; try done.
    by rewrite (statuses_dict_set _ _ a).
Qed.

Lemma trace_summary (fuel : nat) (self : Orchestrator) (env : Env)
    (popped : list Event) (st : Orchestrator * Env) :
  process_events_trace random_random fuel self env = Some (popped, Return st) ->
  List.filter is_arrival popped ≡ₚ List.filter is_arrival (event_queue self) /\
  length popped = length (event_queue self) + (processed st.1 - processed self) /\
  exists lines, stdout st.2 = stdout env ++ lines /\
                map Output_time lines = map time popped.
Proof.
  revert self env popped.
  induction fuel as [|fuel IH]; intros self env popped; simpl;
    destruct (heapq.heappop (event_queue self)) as [[event queue]|] eqn:Hpop; try done.
  - intros [= <- <-]. apply heappop_None in Hpop. rewrite Hpop. simpl.
    split; [done|]. split; [lia|]. exists []. by rewrite app_nil_r.
  - pose proof (heappop_perm _ _ _ Hpop) as Hperm.
    destruct (dispatch _ _ _ _ _) as [[s e]|k st'] eqn:Hd; [|done].
    destruct (process_events_trace _ fuel s e) as [[popped' r']|] eqn:Hrun; [|done].
    intros [= <- ->].
    destruct (IH s e popped' Hrun) as (Hf & Hlen & lines & Hout & Htimes).
    destruct (trace_counters random_random fuel s e popped' (Return st) Hrun)
      as (_ & Hmono & _). simpl in Hmono.
    destruct (dispatch_summary self env event queue s e Hd)
      as [Hq (line & Hline & Hltime)].
    assert (Hq' : List.filter is_arrival (event_queue s) ≡ₚ List.filter is_arrival queue
                  /\ length (event_queue s) = length queue + (processed s - processed self)
                  /\ processed self <= processed s).
    { destruct Hq as [[-> ->]|[best [-> ->]]].
      - split; [done|]. lia.
      - rewrite (filter_Permutation _ _ _ (heappush_perm _ _)), heappush_perm.
        simpl. split; [done|]. lia. }
    destruct Hq' as (Hqf & Hql & Hqm).
    rewrite (filter_Permutation _ _ _ Hperm), Hperm. simpl.
    split; [|split].
    + destruct (is_arrival event); [apply perm_skip|]; by rewrite Hf, Hqf.
    + lia.
    + exists (line :: lines). rewrite Hout, Hline, <- app_assoc. simpl.
      by rewrite Hltime, Htimes.
  - intros [= <- <-]. apply heappop_None in Hpop. rewrite Hpop. simpl.
    split; [done|]. split; [lia|]. exists []. by rewrite app_nil_r.
Qed.

(** The arrivals of the queue are the arrivals popped. *)
Lemma trace_arrivals_decided (fuel : nat) (self : Orchestrator) (env : Env)
    (popped : list Event) (st : Orchestrator * Env) :
  process_events_trace random_random fuel self env = Some (popped, Return st) ->
  List.filter is_arrival popped ≡ₚ List.filter is_arrival (event_queue self) /\
  length popped = length (event_queue self) + (processed st.1 - processed self) /\
  processed st.1 + rejected st.1 =
    processed self + rejected self + arrivals (event_queue self).
Proof.
  intros Hrun. destruct (trace_summary fuel self env popped st Hrun) as (Hf & Hlen & _).
  split; [done|]. split; [done|].
  destruct (trace_counters random_random fuel self env popped (Return st) Hrun)
    as (Hsum & _). simpl in Hsum. rewrite Hsum. unfold arrivals. by rewrite Hf.
Qed.

(** X6. No event is lost: when a run returns, the arrivals it popped are
    the arrivals that were in the queue, it popped one more event for
    each order it accepted (the completion of that order), and the sum
    of the two counters has grown by the number of arrivals that were in
    the queue: every queued order has been accepted or rejected. *)
Theorem every_arrival_is_decided (fuel : nat) (self : Orchestrator) (env : Env)
    (popped : list Event) (st : Orchestrator * Env) :
  process_events_trace random_random fuel self env = Some (popped, Return st) ->
  List.filter is_arrival popped ≡ₚ List.filter is_arrival (event_queue self) /\
  length popped = length (event_queue self) + (processed st.1 - processed self) /\
  processed st.1 + rejected st.1 =
    processed self + rejected self + arrivals (event_queue self).
Proof. exact (trace_arrivals_decided fuel self env popped st). Qed.

(** X7. The log of a run: a run that returns from a reachable
    orchestrator has printed one line per popped event, in the order of
    popping and with the time of the event, so the times of the lines
    never decrease. *)
Theorem log_is_chronological (fuel : nat) (self : Orchestrator) (env : Env)
    (popped : list Event) (st : Orchestrator * Env) :
  reachable random_random self ->
  process_events_trace random_random fuel self env = Some (popped, Return st) ->
  exists lines,
    stdout st.2 = stdout env ++ lines /\
    map Output_time lines = map time popped /\
    Sorted Float.le (map Output_time lines).
Proof.
  intros Hr Hrun.
  destruct (trace_summary fuel self env popped st Hrun) as (_ & _ & lines & Hout & Ht).
  exists lines. split; [done|]. split; [done|]. rewrite Ht.
  apply Sorted_map_time.
  apply reachable_wf in Hr.
  destruct (event_queue self) as [|e0 q] eqn:Hq.
  - eapply (trace_sorted random_random fuel self env popped _ 0); [by apply wf_heap | | done].
    rewrite Hq. intros x Hx. by apply elem_of_nil in Hx.
  - eapply (trace_sorted random_random fuel self env popped _ (time e0));
      [by apply wf_heap | | done].
    rewrite Hq. intros x Hx. apply (root_minimal_elem e0 x q); [|done].
    rewrite <- Hq. by apply wf_heap.
Qed.

(** X8. The event loop never changes who is in the roster or any status:
    whatever [process_events] returns or raises, the keys of the roster
    are as before, in the same order, and every attendant has the status
    it had. *)
Theorem process_events_keeps_statuses (fuel : nat) (self : Orchestrator) (env : Env)
    (r : result (Orchestrator * Env)) :
  process_events random_random fuel self env = Some r ->
  Py.keys (attendants (state_of r).1) = Py.keys (attendants self) /\
  forall n, status <$> Py.dict_get (attendants (state_of r).1) n
            = status <$> Py.dict_get (attendants self) n.
Proof.
  intros Hrun. apply statuses_lookup.
  revert self env Hrun. induction fuel as [|fuel IH]; intros self env; simpl;
    destruct (heapq.heappop (event_queue self)) as [[event queue]|] eqn:Hpop;
    try done; try (by intros [= <-]).
  pose proof (dispatch_statuses self env event queue) as Hst.
  destruct (dispatch _ _ _ _ _) as [[s e]|k st'].
  - intros Hrun. rewrite (IH s e Hrun). exact Hst.
  - intros [= <-]. exact Hst.
Qed.

(** X9. With no active attendant in the roster (an empty roster
    included), an arrival is rejected: [rejected] grows by one, no random
    number is drawn, nothing is pushed on the queue and one rejection
    line is printed; the attendants are refreshed. *)
Theorem arrival_rejected_when_none_active (self : Orchestrator) (env : Env)
    (event : Event) (queue : list Event) :
  type event = order_arrival ->
  (forall n a, (n, a) ∈ attendants self -> status a <> active) ->
  dispatch random_random self env event queue =
    Return (mkOrchestrator (refreshed (attendants self) (time event)) queue
              (time event) (processed self) (rejected self + 1),
            mkEnv (random_calls env) (stdout env ++ [Order_rejected (time event)])).
Proof.
  intros Hty Hnone.
  destruct (dispatch_arrival random_random self env event queue Hty)
    as [[_ ->]|[Hacc _]]; [done|].
  exfalso. apply Hacc.
  destruct (accepting _ _) as [|[n a] l] eqn:Hl; [done|].
  assert ((n, a) ∈ accepting (refreshed (attendants self) (time event)) (time event))
    as Hin by (rewrite Hl; apply list_elem_of_here).
  apply accepting_elem in Hin as [Hin Hcan].
  apply refreshed_elem in Hin as [a0 [Hin0 ->]].
  apply can_accept_update_state_iff in Hcan as [Hst _].
  by apply Hnone in Hin0.
Qed.

End Run.

(** ** [Orchestrator.__init__] and [Orchestrator.add_order] *)

Lemma init_roster_get (l : list Attendant) (d : Py.dict Attendant) (n : string) :
  Py.dict_get (foldl (fun d a => Py.dict_set d (name a) a) d l) n =
    match last (List.filter (fun a => String.eqb (name a) n) l) with
    | Some a => Some a
    | None => Py.dict_get d n
    end.
Proof.
  revert d. induction l as [|a l IH]; intros d; simpl; [done|].
  rewrite IH. destruct (String.eqb_spec (name a) n) as [<-|Hne].
  - rewrite last_cons. destruct (last _); [done|]. apply dict_get_set_eq.
  - destruct (last _); [done|]. by apply dict_get_set_ne.
Qed.

(** X10. The roster built by [Orchestrator.__init__]: looking up a name
    gives the last attendant of the list with that name ([None] when
    there is none), no key occurs twice, and the queue is empty, the
    clock at 0 and both counters at 0. *)
Theorem Orchestrator_init_roster (l : list Attendant) :
  (forall n, Py.dict_get (attendants (Orchestrator_init l)) n =
               last (List.filter (fun a => String.eqb (name a) n) l)) /\
  NoDup (Py.keys (attendants (Orchestrator_init l))) /\
  event_queue (Orchestrator_init l) = [] /\
  current_time (Orchestrator_init l) = 0%F /\
  processed (Orchestrator_init l) = 0 /\
  rejected (Orchestrator_init l) = 0.
Proof.
  split; [|split; [|done]].
  - intros n. simpl. rewrite init_roster_get. by destruct (last _).
  - apply init_roster_keys, NoDup_nil_2.
Qed.

(** What [add_order] changes. *)
Lemma add_order_facts (self : Orchestrator) (t : Float.t) :
  event_queue (add_order self t) ≡ₚ mkEvent t order_arrival [] :: event_queue self /\
  (heap_ok (event_queue self) -> heap_ok (event_queue (add_order self t))) /\
  attendants (add_order self t) = attendants self /\
  current_time (add_order self t) = current_time self /\
  processed (add_order self t) = processed self /\
  rejected (add_order self t) = rejected self.
Proof.
  split; [apply heappush_perm|]. split; [apply heappush_ok | done].
Qed.

(** X11. [add_order] puts one arrival event with the given time and no
    data in the queue, whatever the time (before the clock, negative),
    and drops or duplicates none; the queue stays a heap when it was one,
    and roster, clock and counters are as before. *)
Theorem add_order_queue (self : Orchestrator) (t : Float.t) :
  event_queue (add_order self t) ≡ₚ mkEvent t order_arrival [] :: event_queue self /\
  (heap_ok (event_queue self) -> heap_ok (event_queue (add_order self t))) /\
  attendants (add_order self t) = attendants self /\
  current_time (add_order self t) = current_time self /\
  processed (add_order self t) = processed self /\
  rejected (add_order self t) = rejected self.
Proof. exact (add_order_facts self t). Qed.

(** ** The [__main__] block *)

Lemma foldl_add_order (f : nat -> Float.t) (l : list nat) (o : Orchestrator) :
  let o' := foldl (fun o calls => add_order o (f calls)) o l in
  (wf o -> wf o') /\
  attendants o' = attendants o /\
  processed o' = processed o /\
  rejected o' = rejected o /\
  pending_work (event_queue o') = pending_work (event_queue o) + 2 * length l /\
  arrivals (event_queue o') = arrivals (event_queue o) + length l.
Proof.
  revert o. induction l as [|i l IH]; intros o; simpl.
  - split; [done|]. do 3 (split; [done|]). split; lia.
  - destruct (IH (add_order o (f i))) as (H1 & H2 & H3 & H4 & H5 & H6).
    split; [intros Hwf; by apply H1, wf_add_order|].
    rewrite H2, H3, H4, H5, H6. simpl.
    rewrite pending_work_push, arrivals_push. simpl. do 3 (split; [done|]). split; lia.
Qed.

(** Pushing a completion event for an attendant of the roster on the
    queue, as the [__main__] block does. *)
Lemma push_completion_facts (o : Orchestrator) (t : Float.t) (n : string) :
  let o' := mkOrchestrator (attendants o)
              (heapq.heappush (event_queue o)
                 (mkEvent t order_completion [("attendant"%string, n)]))
              (current_time o) (processed o) (rejected o) in
  wf o -> n ∈ Py.keys (attendants o) ->
  wf o' /\
  pending_work (event_queue o') = 1 + pending_work (event_queue o) /\
  arrivals (event_queue o') = arrivals (event_queue o).
Proof.
  intros o' [W1 W2 W3 W4] Hn. split; [|split].
  - split; simpl.
    + exact W1.
    + exact W2.
    + by apply heappush_ok.
    + apply completions_ok_push; [|exact W4]. intros _. by exists n.
  - simpl. by rewrite pending_work_push.
  - simpl. by rewrite arrivals_push.
Qed.

Section MainFacts.

Variable random_random : nat -> Float.t.

Lemma main_setup_facts :
  wf (main_setup random_random).1 /\
  processed (main_setup random_random).1 = 0 /\
  rejected (main_setup random_random).1 = 0 /\
  pending_work (event_queue (main_setup random_random).1) = 43 /\
  arrivals (event_queue (main_setup random_random).1) = 21.
Proof.
  unfold main_setup. cbv zeta. cbn [fst].
  set (o0 := Orchestrator_init [Attendant_init "Alice"; Attendant_init "Bob"]).
  destruct (foldl_add_order (random_uniform random_random 0 30) (seq 0 20) o0)
    as (H1 & H2 & H3 & H4 & H5 & H6).
  set (o1 := foldl _ o0 (seq 0 20)) in *.
  assert (Hwf : wf o1) by (apply H1; exact (wf_init ["Alice"; "Bob"]%string)).
  assert (Hbob : "Bob"%string ∈ Py.keys (attendants o1)).
  { rewrite H2. apply list_elem_of_further, list_elem_of_here. }
  change (length (seq 0 20)) with 20 in H5, H6.
  change (pending_work (event_queue o0)) with 0 in H5.
  change (arrivals (event_queue o0)) with 0 in H6.
  change (processed o0) with 0 in H3. change (rejected o0) with 0 in H4.
  clearbody o1. clear H1 H2 o0.
  destruct (add_order_facts o1 10) as (_ & _ & Ha & _ & Hp & Hr).
  destruct (push_completion_facts (add_order o1 10) 10 "Bob")
    as (G1 & G2 & G3); [by apply wf_add_order | by rewrite Ha |].
  split; [exact G1|]. split; [by rewrite <- H3|]. split; [by rewrite <- H4|].
  split.
  - rewrite G2. cbn [event_queue add_order]. rewrite pending_work_push, H5. reflexivity.
  - rewrite G3. cbn [event_queue add_order]. rewrite arrivals_push, H6. reflexivity.
Qed.

(** X12. The [__main__] block, for every random source: the run returns
    (no [KeyError], although a completion for Bob was pushed without an
    order), the queue is then empty, and the two totals printed add up to
    the 21 arrivals submitted.  43 iterations are enough. *)
Theorem main_totals (fuel : nat) :
  43 <= fuel ->
  exists orchestrator env,
    main random_random fuel =
      Some (Return (orchestrator, env),
            [Total_processed (processed orchestrator);
             Total_rejected (rejected orchestrator)]) /\
    processed orchestrator + rejected orchestrator = 21 /\
    event_queue orchestrator = [].
Proof.
  intros Hfuel. destruct main_setup_facts as (Hwf & Hp & Hr & Hw & Ha).
  destruct (process_events_terminates random_random fuel
              (main_setup random_random).1 (main_setup random_random).2 Hwf)
    as (s & e & Hrun); [lia|].
  exists s, e. unfold main. rewrite Hrun. split; [done|].
  split; [|by eapply process_events_returns_empty].
  pose proof Hrun as Htr. rewrite process_events_trace_erase in Htr.
  destruct (process_events_trace _ _ _ _) as [[popped r]|] eqn:Htrace; [|done].
  injection Htr as ->.
  destruct (trace_arrivals_decided random_random fuel _ _ popped (s, e) Htrace)
    as (_ & _ & Hsum).
  change ((s, e).1) with s in Hsum. rewrite Hsum, Hp, Hr, Ha. reflexivity.
Qed.

End MainFacts.

(** ** The further properties on the scenario *)

Lemma orders_pipelined_witness :
  exists a,
    Py.dict_get
      (attendants (Nat.iter 2 (iteration example_random) (cooldown_start, mkEnv 0 [])).1)
      "Alice" = Some a /\
    active_orders a = [Float.of_bits 4593671619917906 (-52);
                       Float.of_bits 4526117625507348 (-50)] /\
    Sorted Float.le (active_orders a).
Proof.
  eexists. split; [vm_compute; reflexivity|]. split; [vm_compute; reflexivity|].
  apply (orders_pipelined example_random
           (Nat.iter 2 (iteration example_random) (cooldown_start, mkEnv 0 [])).1 "Alice").
  - do 2 apply reachable_iterate. do 2 apply reachable_add_order.
    exact (reachable_init example_random ["Alice"]%string).
  - vm_compute. apply list_elem_of_here.
Defined.

Lemma order_has_pending_completion_witness :
  mkEvent (0 + 5) order_completion [("attendant"%string, "Bob"%string)]
    ∈ event_queue (example_after 1).1.
Proof.
  eapply (order_has_pending_completion example_random (example_after 1).1 "Bob" _ 0).
  - apply reachable_iterate. apply reachable_example_start.
  - vm_compute. apply list_elem_of_further, list_elem_of_here.
  - apply list_elem_of_here.
Defined.

Lemma process_events_leaves_idle_witness :
  exists r a,
    process_events example_random 4 example_start (mkEnv 0 []) = Some r /\
    Py.dict_get (attendants (state_of r).1) "Bob" = Some a /\
    active_orders a = [].
Proof.
  eexists _, _. split; [vm_compute; reflexivity|]. split; [vm_compute; reflexivity|].
  eapply (process_events_leaves_idle example_random 4 example_start (mkEnv 0 []) _ "Bob").
  - apply reachable_example_start.
  - vm_compute. reflexivity.
  - vm_compute. apply list_elem_of_further, list_elem_of_here.
Defined.

Lemma every_arrival_is_decided_witness :
  exists popped st,
    process_events_trace example_random 4 example_start (mkEnv 0 []) =
      Some (popped, Return st) /\
    length popped = 4 /\
    processed st.1 + rejected st.1 = 0 + 0 + arrivals (event_queue example_start).
Proof.
  eexists _, _. split; [vm_compute; reflexivity|]. split; [reflexivity|].
  refine (proj2 (proj2 (every_arrival_is_decided example_random 4 example_start
                          (mkEnv 0 []) _ _ _))).
  vm_compute. reflexivity.
Defined.

Lemma log_is_chronological_witness :
  exists popped st lines,
    process_events_trace example_random 4 example_start (mkEnv 0 []) =
      Some (popped, Return st) /\
    stdout st.2 = [] ++ lines /\
    map Output_time lines = map time popped /\
    Sorted Float.le (map Output_time lines).
Proof.
  assert (exists popped st,
            process_events_trace example_random 4 example_start (mkEnv 0 []) =
              Some (popped, Return st)) as (popped & st & Hrun).
  { eexists _, _. vm_compute. reflexivity. }
  destruct (log_is_chronological example_random 4 example_start (mkEnv 0 []) popped st
              (reachable_example_start _) Hrun) as (lines & H1 & H2 & H3).
  exists popped, st, lines.
  split; [exact Hrun|]. split; [exact H1|]. split; [exact H2 | exact H3].
Defined.

Lemma process_events_keeps_statuses_witness :
  exists r,
    process_events example_random 4 example_start (mkEnv 0 []) = Some r /\
    Py.keys (attendants (state_of r).1) = ["Alice"; "Bob"]%string /\
    status <$> Py.dict_get (attendants (state_of r).1) "Alice" = Some inactive.
Proof.
  eexists. split; [vm_compute; reflexivity|].
  destruct (process_events_keeps_statuses example_random 4 example_start (mkEnv 0 []) _
              ltac:(vm_compute; reflexivity)) as [Hk Hs].
  split; [exact Hk | exact (Hs "Alice"%string)].
Defined.

Lemma arrival_rejected_when_none_active_witness :
  returns (dispatch example_random (Orchestrator_init []) (mkEnv 0 [])
             (mkEvent 0 order_arrival []) []) = true /\
  rejected (state_of (dispatch example_random (Orchestrator_init []) (mkEnv 0 [])
                        (mkEvent 0 order_arrival []) [])).1 = 1.
Proof.
  rewrite (arrival_rejected_when_none_active example_random (Orchestrator_init [])
             (mkEnv 0 []) (mkEvent 0 order_arrival []) []).
  - split; reflexivity.
  - reflexivity.
  - intros n a Hin. simpl in Hin. by apply elem_of_nil in Hin.
Defined.

Lemma add_order_queue_witness :
  heap_ok (event_queue (add_order main_orchestrator 7)).
Proof.
  apply (proj1 (proj2 (add_order_queue main_orchestrator 7))). apply heap_ok_nil.
Defined.

Lemma main_totals_witness :
  exists orchestrator env,
    main example_random 43 =
      Some (Return (orchestrator, env),
            [Total_processed (processed orchestrator);
             Total_rejected (rejected orchestrator)]) /\
    processed orchestrator + rejected orchestrator = 21 /\
    event_queue orchestrator = [].
Proof. apply (main_totals example_random 43). apply le_n. Defined.

(** ** [Orchestrator.handle_order_completion] and running twice *)

(** X13. [handle_order_completion] prints its line first and then looks
    the attendant up: for a name that is not in the roster it raises
    [KeyError] with the line printed and the orchestrator untouched; for
    a name of the roster it refreshes that attendant at the current time,
    which keeps exactly the orders whose start [s] has the
    double-precision sum [s + 5] after the current time,
    and leaves the other attendants, the queue, the clock and both
    counters as they were. *)
Theorem handle_order_completion_frame (self : Orchestrator) (env : Env) (n : string) :
  let c := current_time self in
  let env' := mkEnv (random_calls env) (stdout env ++ [Order_completed c n]) in
  (n ∉ Py.keys (attendants self) ->
     handle_order_completion self env n = KeyError n (self, env')) /\
  (forall a, Py.dict_get (attendants self) n = Some a ->
     exists self',
       handle_order_completion self env n = Return (self', env') /\
       Py.dict_get (attendants self') n = Some (update_state a c) /\
       (forall s, s ∈ active_orders (update_state a c) <->
                  s ∈ active_orders a /\ (c < s + 5)%F) /\
       (forall other, other <> n ->
          Py.dict_get (attendants self') other = Py.dict_get (attendants self) other) /\
       Py.keys (attendants self') = Py.keys (attendants self) /\
       event_queue self' = event_queue self /\
       current_time self' = current_time self /\
       processed self' = processed self /\
       rejected self' = rejected self).
Proof.
  intros c env'. unfold handle_order_completion. fold c env'. split.
  - intros Hn. apply dict_get_None in Hn. by rewrite Hn.
  - intros a Ha. rewrite Ha. eexists. split; [reflexivity|]. simpl.
    split; [apply dict_get_set_eq|]. split.
    { intros s. rewrite !list_elem_of_In, filter_In, float_gt_true. done. }
    split; [intros other Ho; by apply dict_get_set_ne|].
    split; [apply dict_keys_set; by eapply dict_get_Some_key | done].
Qed.

Lemma handle_order_completion_frame_witness :
  handle_order_completion main_orchestrator (mkEnv 0 []) "Carol" =
    KeyError "Carol" (main_orchestrator, mkEnv 0 [Order_completed 0 "Carol"]) /\
  returns (handle_order_completion main_orchestrator (mkEnv 0 []) "Bob") = true.
Proof.
  destruct (handle_order_completion_frame main_orchestrator (mkEnv 0 []) "Carol")
    as [H1 _].
  destruct (handle_order_completion_frame main_orchestrator (mkEnv 0 []) "Bob")
    as [_ H2].
  split.
  - apply H1. vm_compute. intros H.
    repeat (apply elem_of_cons in H as [H|H]; [discriminate H|]).
    by apply elem_of_nil in H.
  - destruct (H2 (Attendant_init "Bob") eq_refl) as (self' & -> & _). reflexivity.
Defined.

Section Twice.

Variable random_random : nat -> Float.t.

(** X14. Running again does nothing: after [process_events] has
    returned, a second call returns at once, whatever its fuel, with the
    orchestrator, the random source and the log as the first call left
    them. *)
Theorem process_events_twice (fuel fuel' : nat) (self : Orchestrator) (env : Env)
    (self' : Orchestrator) (env' : Env) :
  process_events random_random fuel self env = Some (Return (self', env')) ->
  process_events random_random fuel' self' env' = Some (Return (self', env')).
Proof.
  intros Hrun. apply process_events_returns_empty in Hrun.
  destruct fuel'; simpl; by rewrite Hrun.
Qed.

End Twice.

Lemma process_events_twice_witness :
  exists self' env',
    process_events example_random 4 example_start (mkEnv 0 []) =
      Some (Return (self', env')) /\
    process_events example_random 0 self' env' = Some (Return (self', env')).
Proof.
  eexists _, _. split; [vm_compute; reflexivity|].
  eapply (process_events_twice example_random 4 0 example_start (mkEnv 0 [])).
  vm_compute. reflexivity.
Defined.

Lemma can_accept_after_update_state_witness :
  let s0 := Float.of_bits 4593671619917906 (-52) in
  let c := Float.of_bits 4526117625507348 (-50) in
  can_accept (update_state (mkAttendant "Alice" [s0] active 0) c) c = true.
Proof.
  cbv zeta.
  apply (proj2 (can_accept_after_update_state
                  (mkAttendant "Alice" [Float.of_bits 4593671619917906 (-52)] active 0)
                  (Float.of_bits 4526117625507348 (-50)))).
  split; [reflexivity|]. right. exists (Float.of_bits 4593671619917906 (-52)).
  split; [vm_compute; reflexivity | vm_compute; discriminate].
Defined.
